(** * skbold.core.mvp: the [Mvp] container and its two updating methods

    A shallow embedding of [src/skbold/core/mvp.py].  The class [Mvp] keeps a
    pattern matrix [X], the condition labels and the voxel mask of one
    first-level directory.  Two methods change it after the loader has filled
    it in:

    - [update_metadata] recomputes every label-derived attribute from
      [cope_labels];
    - [update_mask] composes the current mask with an index given over the
      voxels that are currently selected.

    The methods mutate [self] and may raise, so they are written in a small
    monad that threads the object and keeps it when an exception escapes
    (a Python exception does not roll attributes back). *)

From Stdlib Require Import String Ascii List ZArith Arith Bool Lia.
From Stdlib Require Import DecimalString Permutation Sorted.
Import ListNotations.

Local Open Scope list_scope.

(* ================================================================== *)
(** ** Python exceptions *)

Inductive exn : Type :=
| ValueError (msg : string)
| IndexError
| AttributeError
| TypeError.

(** [%r] of a Python int, and of a numpy int64 as numpy printed it when this
    code was written: the decimal digits, with a leading minus sign. *)
Definition repr_Z (z : Z) : string := NilZero.string_of_int (Z.to_int z).
Definition repr_nat (n : nat) : string := repr_Z (Z.of_nat n).

(* ================================================================== *)
(** ** The part of numpy the two methods use

    An array is its dtype (the constructor), its shape and its elements in
    row-major order.  Two dtypes are modelled: [bool] and the default integer
    [int64].  [np.zeros] makes a float64 array; the only values that ever
    reach it here are [0.0 + b] and [0.0 + n] for a boolean [b] or an integer
    [n], so its elements are kept as the integers they are equal to (the
    conversion of an int64 to float64 rounds above 2^53 but never to zero,
    and only being zero or not is observed, by [astype(bool)]). *)
Module np.

Inductive ndarray : Type :=
| BoolArray (shape : list nat) (data : list bool)
| IntArray (shape : list nat) (data : list Z).

Record float64_array : Type := FloatArray
  { fshape : list nat; fdata : list Z }.

Definition prod (s : list nat) : nat := fold_right Nat.mul 1 s.

Definition shape (a : ndarray) : list nat :=
  match a with BoolArray s _ => s | IntArray s _ => s end.

(** [a.size] *)
Definition size (a : ndarray) : nat := prod (shape a).

(** The elements as numbers: [True] counts as 1. *)
Definition values (a : ndarray) : list Z :=
  match a with
  | BoolArray _ d => map Z.b2z d
  | IntArray _ d => d
  end.

Definition nonzero (z : Z) : bool := negb (z =? 0)%Z.

(** The elements as truth values: an integer is true when it is not 0. *)
Definition truth (a : ndarray) : list bool :=
  match a with
  | BoolArray _ d => d
  | IntArray _ d => map nonzero d
  end.

Definition wrap64 (z : Z) : Z := ((z + 2 ^ 63) mod 2 ^ 64 - 2 ^ 63)%Z.

(** [a.sum()]: the number of [True] for a boolean array (an int64 that
    cannot overflow, the count is at most [a.size]); the int64 sum, which
    wraps, for an integer array. *)
Definition sum (a : ndarray) : Z :=
  match a with
  | BoolArray _ d => fold_right Z.add 0%Z (map Z.b2z d)
  | IntArray _ d => wrap64 (fold_right Z.add 0%Z d)
  end.

(** [np.count_nonzero(a)] *)
Definition count_nonzero (a : ndarray) : nat :=
  length (filter (fun b : bool => b) (truth a)).

(** [np.zeros(shape)] *)
Definition zeros (s : list nat) : float64_array :=
  FloatArray s (repeat 0%Z (prod s)).

(** [a.reshape(s)]: the same elements under another shape; numpy refuses
    when the sizes differ. *)
Definition reshape (a : ndarray) (s : list nat) : exn + ndarray :=
  if size a =? prod s then
    inr match a with
        | BoolArray _ d => BoolArray s d
        | IntArray _ d => IntArray s d
        end
  else inl (ValueError "total size of new array must be unchanged"%string).

(** *** Broadcasting of an operand into a result of fixed shape *)

(** Row-major multi-index of the flat position [p] in an array of shape [s]. *)
Fixpoint unravel (s : list nat) (p : nat) : list nat :=
  match s with
  | [] => []
  | d :: s' => (p / prod s') mod d :: unravel s' (p mod prod s')
  end.

(** Flat position of a multi-index. *)
Fixpoint ravel (s ix : list nat) : nat :=
  match s, ix with
  | _ :: s', i :: ix' => i * prod s' + ravel s' ix'
  | _, _ => 0
  end.

Fixpoint dims_match (s t : list nat) : bool :=
  match s, t with
  | [], [] => true
  | a :: s', b :: t' => ((a =? b) || (a =? 1)) && dims_match s' t'
  | _, _ => false
  end.

(** An operand of shape [s] can be added in place into a result of shape
    [t] when it has no more axes and each of its axes, aligned from the
    right, has the result's length or length 1. *)
Definition broadcastable (s t : list nat) : bool :=
  (length s <=? length t) && dims_match s (skipn (length t - length s) t).

Fixpoint clamp (s ix : list nat) : list nat :=
  match s, ix with
  | d :: s', i :: ix' => (if d =? 1 then 0 else i) :: clamp s' ix'
  | _, _ => []
  end.

(** The operand's element that lands on flat position [p] of the result. *)
Definition source (s t : list nat) (p : nat) : nat :=
  ravel s (clamp s (skipn (length t - length s) (unravel t p))).

(** [t += v] for a float64 [t]: numpy raises ValueError when [v] does not
    broadcast to the shape of [t]. *)
Definition iadd (t : float64_array) (v : ndarray) : exn + float64_array :=
  if broadcastable (shape v) (fshape t) then
    inr (FloatArray (fshape t)
           (map (fun '(p, x) => (x + nth (source (shape v) (fshape t) p) (values v) 0)%Z)
                (combine (seq 0 (length (fdata t))) (fdata t))))
  else inl (ValueError "operands could not be broadcast together"%string).

(** *** Indexing with a boolean array of the array's own shape *)

(** [a[mask]]: the elements at the true positions, in row-major order. *)
Fixpoint compress (mask : list bool) (a : list Z) : list Z :=
  match mask, a with
  | b :: mask', x :: a' =>
      if b then x :: compress mask' a' else compress mask' a'
  | _, _ => []
  end.

(** [a[mask] = v]: the elements of [v] go to the true positions, in the
    same order. *)
Fixpoint place (mask : list bool) (a v : list Z) : list Z :=
  match a, mask with
  | x :: a', true :: mask' =>
      match v with
      | w :: v' => w :: place mask' a' v'
      | [] => x :: place mask' a' []
      end
  | x :: a', false :: mask' => x :: place mask' a' v
  | _, _ => a
  end.

(** *** Indexing with an integer array

    [a[idx]] takes whole rows along the first axis: the result has shape
    [idx.shape + a.shape[1:]].  A negative index counts from the end; an
    index outside [-n, n) raises IndexError, and so does any index into a
    0-dimensional array. *)

Definition row_of (n : nat) (e : Z) : option nat :=
  if ((- Z.of_nat n <=? e) && (e <? Z.of_nat n))%Z then
    Some (Z.to_nat (if (e <? 0)%Z then e + Z.of_nat n else e))
  else None.

Fixpoint rows_of (n : nat) (idx : list Z) : option (list nat) :=
  match idx with
  | [] => Some []
  | e :: idx' =>
      match row_of n e, rows_of n idx' with
      | Some r, Some rs => Some (r :: rs)
      | _, _ => None
      end
  end.

Definition chunk (w k : nat) (a : list Z) : list Z :=
  firstn w (skipn (k * w) a).

(** Row [r] of [a] (rows of [w] elements) replaced by [c]. *)
Definition write_row (w r : nat) (c a : list Z) : list Z :=
  map (fun '(j, x) =>
         if (r * w <=? j) && (j <? r * w + w) then nth (j - r * w) c x else x)
      (combine (seq 0 (length a)) a).

(** [a[idx] = v], row after row in the order of [idx]: when a row is named
    twice the later write stays. *)
Fixpoint write_rows (w : nat) (rows : list nat) (k : nat) (v a : list Z)
  : list Z :=
  match rows with
  | [] => a
  | r :: rows' => write_rows w rows' (S k) v (write_row w r (chunk w k v) a)
  end.

(** [a[idx] += v], that is [t = a[idx]; t += v; a[idx] = t]. *)
Definition iadd_at (a : float64_array) (idx v : ndarray)
  : exn + float64_array :=
  match idx with
  | BoolArray _ mask =>
      let t := compress mask (fdata a) in
      match iadd (FloatArray [length t] t) v with
      | inl e => inl e
      | inr t' => inr (FloatArray (fshape a) (place mask (fdata a) (fdata t')))
      end
  | IntArray s rows =>
      match fshape a with
      | [] => inl IndexError
      | n :: s' =>
          match rows_of n rows with
          | None => inl IndexError
          | Some rs =>
              let w := prod s' in
              let t := flat_map (fun r => chunk w r (fdata a)) rs in
              match iadd (FloatArray (s ++ s') t) v with
              | inl e => inl e
              | inr t' =>
                  inr (FloatArray (fshape a)
                         (write_rows w rs 0 (fdata t') (fdata a)))
              end
          end
      end
  end.

(** [a.astype(bool).ravel()] *)
Definition astype_bool_ravel (a : float64_array) : ndarray :=
  BoolArray [prod (fshape a)] (map nonzero (fdata a)).

(** *** Arrays of strings (one axis), as [cope_labels] is

    Their elements are byte strings and numpy orders them byte by byte,
    which is [String.leb]. *)

Fixpoint insert (x : string) (l : list string) : list string :=
  match l with
  | [] => [x]
  | z :: l' => if String.leb x z then x :: l else z :: insert x l'
  end.

(** [ar.sort()] *)
Definition sort (l : list string) : list string := fold_right insert [] l.

(** Of a run of equal neighbours one element is kept. *)
Fixpoint uniq (l : list string) : list string :=
  match l with
  | [] => []
  | x :: l' =>
      match l' with
      | [] => [x]
      | z :: _ => if String.eqb x z then uniq l' else x :: uniq l'
      end
  end.

(** [np.unique(ar)]: the sorted distinct elements. *)
Definition unique (l : list string) : list string := uniq (sort l).

(** Position of [x] in [u] ([length u] when it is absent). *)
Fixpoint index (x : string) (u : list string) : nat :=
  match u with
  | [] => 0
  | z :: u' => if String.eqb x z then 0 else S (index x u')
  end.

(** [np.unique(ar, return_inverse=True)]: the distinct elements, and for
    every element of [ar] its position among them. *)
Definition unique_inverse (l : list string) : list string * list nat :=
  let u := unique l in (u, map (fun x => index x u) l).

(** [ar == x], element by element. *)
Definition eq_elem (ar : list string) (x : string) : list bool :=
  map (fun z => String.eqb z x) ar.

(** [np.sum(b)] of a boolean vector. *)
Definition count_true (b : list bool) : nat :=
  length (filter (fun t : bool => t) b).

Fixpoint where_from (k : nat) (b : list bool) : list nat :=
  match b with
  | [] => []
  | t :: b' => if t then k :: where_from (S k) b' else where_from (S k) b'
  end.

(** [np.where(b)[0]]: the positions of the true elements, ascending. *)
Definition where_ (b : list bool) : list nat := where_from 0 b.

End np.

(** [sklearn.preprocessing.LabelEncoder().fit_transform(y)] is
    [np.unique(y, return_inverse=True)[1]] once [column_or_1d] has accepted
    [y]; it rejects [None], whose shape is [()], with a ValueError. *)
Module LabelEncoder.

Definition fit_transform (y : option (list string)) : exn + list nat :=
  match y with
  | None => inl (ValueError "bad input shape ()"%string)
  | Some l => inr (snd (np.unique_inverse l))
  end.

End LabelEncoder.

(* ================================================================== *)
(** ** The string and path functions [__init__] uses *)

(** Methods of Python's [str], for a separator of one character. *)
Module str.

(** [c in s] *)
Fixpoint contains (c : ascii) (s : string) : bool :=
  match s with
  | EmptyString => false
  | String a r => Ascii.eqb a c || contains c r
  end.

(** [s.rfind(c) + 1]: one past the last [c], and 0 when there is none. *)
Fixpoint rfind1 (c : ascii) (s : string) : nat :=
  match s with
  | EmptyString => 0
  | String a r =>
      match rfind1 c r with
      | 0 => if Ascii.eqb a c then 1 else 0
      | S k => S (S k)
      end
  end.

(** [s[:i]] *)
Fixpoint slice_to (i : nat) (s : string) : string :=
  match i, s with
  | S i', String a r => String a (slice_to i' r)
  | _, _ => EmptyString
  end.

(** [s[i:]] *)
Fixpoint slice_from (i : nat) (s : string) : string :=
  match i, s with
  | S i', String _ r => slice_from i' r
  | _, _ => s
  end.

(** [s.rstrip(c)] *)
Fixpoint rstrip (c : ascii) (s : string) : string :=
  match s with
  | EmptyString => EmptyString
  | String a r =>
      match rstrip c r with
      | EmptyString => if Ascii.eqb a c then EmptyString else String a EmptyString
      | r' => String a r'
      end
  end.

(** [c * n] *)
Fixpoint times (c : ascii) (n : nat) : string :=
  match n with
  | 0 => EmptyString
  | S n' => String c (times c n')
  end.

(** [s.split(c)]: the pieces between the separators; never an empty list. *)
Fixpoint split (c : ascii) (s : string) : list string :=
  match s with
  | EmptyString => [EmptyString]
  | String a r =>
      if Ascii.eqb a c then EmptyString :: split c r
      else match split c r with
           | h :: t => String a h :: t
           | [] => [String a EmptyString]
           end
  end.

End str.

(** [os.path] on a POSIX system ([posixpath]). *)
Module op.

Definition sep : ascii := "/"%char.

(** [i = p.rfind('/') + 1; return p[i:]] *)
Definition basename (p : string) : string :=
  let i := str.rfind1 sep p in
  str.slice_from i p.

(** [i = p.rfind('/') + 1; head = p[:i]]; then, when [head] is not empty
    and not made of slashes only, [head = head.rstrip('/')]. *)
Definition dirname (p : string) : string :=
  let i := str.rfind1 sep p in
  let head := str.slice_to i p in
  if negb (String.eqb head EmptyString)
     && negb (String.eqb head (str.times sep (String.length head)))
  then str.rstrip sep head
  else head.

End op.

(* ================================================================== *)
(** ** The class *)

Section Container.

(** The pattern matrix, the nifti header and the affine are only stored. *)
Context {matrix header affine_t : Type}.

(** The attributes of an [Mvp] object that the two methods read or write,
    with the data the loader attaches.  [None] is Python's [None] for the
    attributes [__init__] sets to it, and an attribute not yet created for
    the four that [update_metadata] adds ([n_trials], [n_inst],
    [class_idx], [trial_idx]).  [cope_labels] is a numpy array of strings
    with one axis and [mask_shape] the tuple the loader stored. *)
Record Mvp : Type := mkMvp {
  cope_labels : option (list string);
  n_cope : option nat;
  cope_names : option (list string);
  mask_index : option np.ndarray;
  mask_shape : list nat;
  nifti_header : option header;
  affine : option affine_t;
  X : option matrix;
  y : option (list nat);
  n_trials : option nat;
  n_inst : option (list nat);
  class_idx : option (list (list bool));
  trial_idx : option (list (list nat))
}.

(** A method body: it runs on [self], returns or raises, and leaves the
    object as its assignments made it. *)
Definition M (A : Type) : Type := Mvp -> (exn + A) * Mvp.

Definition ret {A} (a : A) : M A := fun self => (inr a, self).

Definition bind {A B} (c : M A) (k : A -> M B) : M B :=
  fun self =>
    match c self with
    | (inl e, self') => (inl e, self')
    | (inr a, self') => k a self'
    end.

Definition raise {A} (e : exn) : M A := fun self => (inl e, self).

(** Reading [self.attr]. *)
Definition attr {A} (f : Mvp -> A) : M A := fun self => (inr (f self), self).

(** An assignment [self.attr = v]. *)
Definition assign (f : Mvp -> Mvp) : M unit := fun self => (inr tt, f self).

(** A call into numpy or sklearn, which may raise. *)
Definition call {A} (r : exn + A) : M A :=
  match r with inl e => raise e | inr a => ret a end.

End Container.

Arguments Mvp : clear implicits.
Arguments M : clear implicits.

Declare Scope method_scope.
Delimit Scope method_scope with method.
Notation "x <- c ;; k" := (bind c (fun x => k))
  (at level 61, c at next level, right associativity) : method_scope.
Notation "c ;; k" := (bind c (fun _ => k))
  (at level 61, right associativity) : method_scope.

(* ================================================================== *)
(** ** The two methods *)

Section Methods.

Context {matrix header affine_t : Type}.

Local Abbreviation Mvp_t := (Mvp matrix header affine_t).
Local Abbreviation method := (M matrix header affine_t).

Local Open Scope method_scope.

(** [self.attr = v], one function per attribute that is assigned. *)
Definition set_y (v : option (list nat)) (self : Mvp_t) : Mvp_t :=
  mkMvp (cope_labels self) (n_cope self) (cope_names self) (mask_index self)
    (mask_shape self) (nifti_header self) (affine self) (X self) v
    (n_trials self) (n_inst self) (class_idx self) (trial_idx self).

Definition set_n_trials (v : option nat) (self : Mvp_t) : Mvp_t :=
  mkMvp (cope_labels self) (n_cope self) (cope_names self) (mask_index self)
    (mask_shape self) (nifti_header self) (affine self) (X self) (y self) v
    (n_inst self) (class_idx self) (trial_idx self).

Definition set_cope_names (v : option (list string)) (self : Mvp_t) : Mvp_t :=
  mkMvp (cope_labels self) (n_cope self) v (mask_index self)
    (mask_shape self) (nifti_header self) (affine self) (X self) (y self)
    (n_trials self) (n_inst self) (class_idx self) (trial_idx self).

Definition set_n_cope (v : option nat) (self : Mvp_t) : Mvp_t :=
  mkMvp (cope_labels self) v (cope_names self) (mask_index self)
    (mask_shape self) (nifti_header self) (affine self) (X self) (y self)
    (n_trials self) (n_inst self) (class_idx self) (trial_idx self).

Definition set_n_inst (v : option (list nat)) (self : Mvp_t) : Mvp_t :=
  mkMvp (cope_labels self) (n_cope self) (cope_names self) (mask_index self)
    (mask_shape self) (nifti_header self) (affine self) (X self) (y self)
    (n_trials self) v (class_idx self) (trial_idx self).

Definition set_class_idx (v : option (list (list bool)))
  (self : Mvp_t) : Mvp_t :=
  mkMvp (cope_labels self) (n_cope self) (cope_names self) (mask_index self)
    (mask_shape self) (nifti_header self) (affine self) (X self) (y self)
    (n_trials self) (n_inst self) v (trial_idx self).

Definition set_trial_idx (v : option (list (list nat)))
  (self : Mvp_t) : Mvp_t :=
  mkMvp (cope_labels self) (n_cope self) (cope_names self) (mask_index self)
    (mask_shape self) (nifti_header self) (affine self) (X self) (y self)
    (n_trials self) (n_inst self) (class_idx self) v.

Definition set_mask_index (v : option np.ndarray) (self : Mvp_t) : Mvp_t :=
  mkMvp (cope_labels self) (n_cope self) (cope_names self) v
    (mask_shape self) (nifti_header self) (affine self) (X self) (y self)
    (n_trials self) (n_inst self) (class_idx self) (trial_idx self).

(** [Mvp.update_metadata], statement by statement.  Only the first
    statement can raise: the encoder refuses [None].  [len(None)] would
    raise TypeError on the next line, which is then never reached. *)
Definition update_metadata : method unit :=
  cl <- attr cope_labels ;;
  y' <- call (LabelEncoder.fit_transform cl) ;;
  assign (set_y (Some y')) ;;
  match cl with
  | None => raise TypeError
  | Some cl =>
      assign (set_n_trials (Some (length cl))) ;;
      assign (set_cope_names (Some (np.unique cl))) ;;
      names <- attr cope_names ;;
      let names := match names with Some u => u | None => [] end in
      assign (set_n_cope (Some (length names))) ;;
      assign (set_n_inst
                (Some (map (fun cls => np.count_true (np.eq_elem cl cls)) cl))) ;;
      assign (set_class_idx
                (Some (map (fun cls => np.eq_elem cl cls) names))) ;;
      assign (set_trial_idx
                (Some (map (fun cls => np.where_ (np.eq_elem cl cls)) names)))
  end.

(** The text of the ValueError of [update_mask]. *)
Definition mask_msg (new_size : nat) (cur : Z) : string :=
  ("Shape of new index (" ++ repr_nat new_size
     ++ ") is not the same as the current pattern (" ++ repr_Z cur ++ ")!")%string.

(** [Mvp.update_mask].  [None] has no [sum], so an object whose mask was
    never set raises AttributeError in the test.  Nothing is assigned
    before the last line. *)
Definition update_mask (new_idx : np.ndarray) : method unit :=
  cur <- attr mask_index ;;
  match cur with
  | None => raise AttributeError
  | Some cur =>
      if negb (Z.of_nat (np.size new_idx) =? np.sum cur)%Z then
        raise (ValueError (mask_msg (np.size new_idx) (np.sum cur)))
      else
        shape <- attr mask_shape ;;
        let tmp_idx := np.zeros shape in
        idx <- call (np.reshape cur shape) ;;
        tmp_idx <- call (np.iadd_at tmp_idx idx new_idx) ;;
        assign (set_mask_index (Some (np.astype_bool_ravel tmp_idx)))
  end.

(** Several [update_mask] calls in a row; the first exception ends them. *)
Fixpoint update_masks (idxs : list np.ndarray) : method unit :=
  match idxs with
  | [] => ret tt
  | i :: idxs' => update_mask i ;; update_masks idxs'
  end.

End Methods.

(** ** The constructor *)

Section Init.

(** [mask_threshold] is a number that is only stored. *)
Context {threshold : Type}.

(** The attributes [__init__] computes from its arguments.  It also sets
    [cope_labels], [n_cope], [cope_names], [mask_index], [mask_shape],
    [nifti_header], [affine], [X] and [y] to [None]. *)
Record MvpInit : Type := mkMvpInit {
  directory : string;
  sub_name : string;
  run_name : string;
  ref_space : string;
  beta2tstat : bool;
  mask_path : option string;
  mask_threshold : threshold;
  mask_name : string;
  remove_cope : list string
}.

(** [Mvp.__init__]; [cleanup] is accepted and not used. *)
Definition __init__ (directory : string) (mask_threshold : threshold)
  (beta2tstat : bool) (ref_space : string) (mask_path : option string)
  (remove_cope : list string) (cleanup : bool) : MvpInit :=
  mkMvpInit
    directory
    (op.basename (op.dirname directory))
    (last (str.split "_" (hd EmptyString (str.split "." (op.basename directory))))
          EmptyString)
    ref_space
    beta2tstat
    mask_path
    mask_threshold
    (match mask_path with
     | Some mp => op.basename (op.dirname mp)
     | None => "WholeBrain"%string
     end)
    remove_cope.

End Init.

Arguments MvpInit : clear implicits.

(** A container with byte-sized stand-ins for the stored data. *)
Definition example_mvp (labels : option (list string))
  (mask : option np.ndarray) (shape : list nat) : Mvp unit unit unit :=
  mkMvp labels None None mask shape (Some tt) (Some tt) (Some tt)
        None None None None None.

(** The mask of shape (2,2) with the first and third voxel selected. *)
Definition scenario_mask : Mvp unit unit unit :=
  example_mvp None (Some (np.BoolArray [4] [true; false; true; false])) [2; 2].

(** An integer mask of shape (2,2), refined twice. *)
Definition scenario_int_mask : Mvp unit unit unit :=
  example_mvp None (Some (np.IntArray [2; 2] [1; 1; 0; 0]%Z)) [2; 2].

Definition scenario_indices : list np.ndarray :=
  [np.IntArray [2] [3; 4]%Z; np.BoolArray [4] [false; true; false; false]].

(** The six labels of the worked example. *)
Definition scenario_labels : list string :=
  ["A"; "B"; "A"; "C"; "B"; "A"]%string.

(* ================================================================== *)
(** ** Vocabulary of the statements *)

(** Byte-wise order of labels. *)
Definition str_lt (a b : string) : Prop := String.ltb a b = true.
Definition str_le (a b : string) : Prop := String.leb a b = true.

(** The rank of a name among the distinct names of [l]: how many distinct
    names come before it. *)
Definition rank (x : string) (l : list string) : nat :=
  length (filter (fun c => String.ltb c x) (nodup string_dec l)).

(** A call [update_mask(new_idx)] as the container is meant to be used: the
    mask is a boolean array with as many elements as [mask_shape] has
    voxels, and [new_idx] has one axis and one element for every voxel that
    is selected now. *)
Definition valid_call {matrix header affine_t}
  (self : Mvp matrix header affine_t) (new_idx : np.ndarray) : Prop :=
  match mask_index self with
  | Some (np.BoolArray s d) =>
      length d = np.prod s /\ np.prod s = np.prod (mask_shape self) /\
      np.shape new_idx = [np.count_true d] /\
      length (np.values new_idx) = np.count_true d
  | _ => False
  end.

(** The mask attribute as [update_mask] leaves it: boolean, one axis, one
    element per voxel of [mask_shape]. *)
Definition flat_mask {matrix header affine_t}
  (self : Mvp matrix header affine_t) : Prop :=
  exists d, mask_index self = Some (np.BoolArray [np.prod (mask_shape self)] d)
            /\ length d = np.prod (mask_shape self).

(** What [update_mask] stores for a boolean mask [mask] and the values [v]
    of the index: the truth value of each entry of [v], in order, at the
    true positions of [mask], and [False] everywhere else. *)
Definition refined (mask : list bool) (v : list Z) : list bool :=
  map np.nonzero (np.place mask (repeat 0%Z (length mask)) v).

(** The index that does in one call what [i] and then [j] do in two: [i]
    taken as a mask over the selected voxels and refined by [j]. *)
Definition compose_idx (i j : np.ndarray) : np.ndarray :=
  np.BoolArray [length (np.truth i)] (refined (np.truth i) (np.values j)).

(** The object once [update_metadata] has run on the labels [cl]: its seven
    assignments, in the order of the source. *)
Definition with_metadata {matrix header affine_t} (cl : list string)
  (self : Mvp matrix header affine_t) : Mvp matrix header affine_t :=
  let names := np.unique cl in
  set_trial_idx (Some (map (fun cls => np.where_ (np.eq_elem cl cls)) names))
    (set_class_idx (Some (map (fun cls => np.eq_elem cl cls) names))
       (set_n_inst
          (Some (map (fun cls => np.count_true (np.eq_elem cl cls)) cl))
          (set_n_cope (Some (length names))
             (set_cope_names (Some names)
                (set_n_trials (Some (length cl))
                   (set_y (Some (map (fun x => np.index x names) cl))
                      self)))))).

(** A string without the character [c]. *)
Definition free_of (c : ascii) (s : string) : Prop := str.contains c s = false.

(** What may come before the last two components of a path: nothing, or
    anything that ends with a slash. *)
Definition path_prefix (pre : string) : Prop :=
  pre = EmptyString \/ exists q, pre = (q ++ "/")%string.

(* ================================================================== *)
(** ** The order of byte strings *)

Section StringOrder.

Lemma ascii_compare_refl c : Ascii.compare c c = Eq.
Proof. unfold Ascii.compare. apply N.compare_refl. Qed.

Lemma str_compare_refl s : String.compare s s = Eq.
Proof.
  induction s as [|c s IH]; simpl; [reflexivity|].
  now rewrite ascii_compare_refl.
Qed.

Lemma str_compare_lt_trans a : forall b c,
  String.compare a b = Lt -> String.compare b c = Lt -> String.compare a c = Lt.
Proof.
  induction a as [|x a IH]; intros [|z b] [|w c]; simpl; try congruence.
  unfold Ascii.compare.
  destruct (N.compare_spec (N_of_ascii x) (N_of_ascii z)) as [E1|L1|G1];
    try discriminate;
    destruct (N.compare_spec (N_of_ascii z) (N_of_ascii w)) as [E2|L2|G2];
    try discriminate; intros H1 H2.
  - rewrite E1, E2, N.compare_refl. now apply IH with b.
  - rewrite E1. now apply N.compare_lt_iff in L2 as ->.
  - rewrite <- E2. now apply N.compare_lt_iff in L1 as ->.
  - assert (L : (N_of_ascii x < N_of_ascii w)%N) by lia.
    now apply N.compare_lt_iff in L as ->.
Qed.

Lemma str_lt_irrefl a : ~ str_lt a a.
Proof. unfold str_lt, String.ltb. now rewrite str_compare_refl. Qed.

Lemma str_lt_trans a b c : str_lt a b -> str_lt b c -> str_lt a c.
Proof.
  unfold str_lt, String.ltb. intros H1 H2.
  destruct (String.compare a b) eqn:E1; try discriminate.
  destruct (String.compare b c) eqn:E2; try discriminate.
  now rewrite (str_compare_lt_trans a b c).
Qed.

Lemma str_le_lt_or_eq a b : str_le a b -> str_lt a b \/ a = b.
Proof.
  unfold str_le, str_lt, String.leb, String.ltb.
  destruct (String.compare a b) eqn:E; intros H; try discriminate.
  - right. now apply String.compare_eq_iff.
  - now left.
Qed.

Lemma str_lt_le a b : str_lt a b -> str_le a b.
Proof.
  unfold str_le, str_lt, String.leb, String.ltb.
  destruct (String.compare a b); intros H; try reflexivity; discriminate H.
Qed.

Lemma str_le_refl a : str_le a a.
Proof. unfold str_le, String.leb. now rewrite str_compare_refl. Qed.

Lemma str_lt_le_trans a b c : str_lt a b -> str_le b c -> str_lt a c.
Proof.
  intros H1 H2. destruct (str_le_lt_or_eq _ _ H2) as [H|<-]; [|assumption].
  now apply str_lt_trans with b.
Qed.

Lemma str_le_trans a b c : str_le a b -> str_le b c -> str_le a c.
Proof.
  intros H1 H2. destruct (str_le_lt_or_eq _ _ H1) as [H|<-]; [|assumption].
  apply str_lt_le. now apply str_lt_le_trans with b.
Qed.

Lemma str_not_le_lt a b : String.leb a b = false -> str_lt b a.
Proof.
  unfold str_lt, String.leb, String.ltb. rewrite (String.compare_antisym a b).
  destruct (String.compare b a); simpl; intros H; try reflexivity; discriminate H.
Qed.

Lemma str_lt_asym a b : str_lt a b -> ~ str_lt b a.
Proof. intros H1 H2. exact (str_lt_irrefl a (str_lt_trans _ _ _ H1 H2)). Qed.

End StringOrder.

(* ================================================================== *)
(** ** [np.unique] and the inverse it returns *)

Section UniqueFacts.

Lemma insert_In a l x : In x (np.insert a l) <-> x = a \/ In x l.
Proof.
  induction l as [|z l IH]; simpl.
  - intuition.
  - destruct (String.leb a z); simpl; rewrite ?IH; intuition.
Qed.

Lemma sort_In l x : In x (np.sort l) <-> In x l.
Proof.
  induction l as [|a l IH]; simpl; [reflexivity|].
  unfold np.sort in *. rewrite insert_In, IH. intuition.
Qed.

Lemma insert_sorted a l :
  StronglySorted str_le l -> StronglySorted str_le (np.insert a l).
Proof.
  induction 1 as [|z l Hs IH Hz]; simpl.
  - repeat constructor.
  - destruct (String.leb a z) eqn:E.
    + constructor; [now constructor|].
      constructor; [exact E|].
      eapply Forall_impl; [|exact Hz].
      intros w Hw. now apply str_le_trans with z.
    + constructor; [exact IH|].
      apply Forall_forall. intros w Hw.
      apply (proj1 (insert_In _ _ _)) in Hw as [->|Hw].
      * apply str_lt_le. now apply str_not_le_lt.
      * rewrite Forall_forall in Hz. now apply Hz.
Qed.

Lemma sort_sorted l : StronglySorted str_le (np.sort l).
Proof.
  induction l as [|a l IH]; simpl; [constructor|].
  now apply insert_sorted.
Qed.

Lemma uniq_In l x : In x (np.uniq l) <-> In x l.
Proof.
  induction l as [|a l IH]; [reflexivity|].
  destruct l as [|z l']; [reflexivity|].
  change (np.uniq (a :: z :: l'))
    with (if String.eqb a z then np.uniq (z :: l') else a :: np.uniq (z :: l')).
  destruct (String.eqb_spec a z) as [->|N].
  - rewrite IH. simpl. intuition.
  - simpl In at 1. rewrite IH. simpl. intuition.
Qed.

Lemma uniq_sorted l :
  StronglySorted str_le l -> StronglySorted str_lt (np.uniq l).
Proof.
  induction 1 as [|a l Hs IH Ha]; [constructor|].
  destruct l as [|z l']; [repeat constructor|].
  change (np.uniq (a :: z :: l'))
    with (if String.eqb a z then np.uniq (z :: l') else a :: np.uniq (z :: l')).
  destruct (String.eqb_spec a z) as [->|N]; [exact IH|].
  constructor; [exact IH|].
  apply Forall_forall. intros w Hw. apply (proj1 (uniq_In _ _)) in Hw.
  inversion Ha as [|? ? Haz Hal]; subst.
  assert (Hlt : str_lt a z).
  { destruct (str_le_lt_or_eq _ _ Haz) as [H|H]; [exact H|contradiction]. }
  simpl in Hw. destruct Hw as [<-|Hw]; [exact Hlt|].
  inversion Hs as [|? ? _ Hz]; subst.
  rewrite Forall_forall in Hz.
  apply str_lt_le_trans with z; [exact Hlt|now apply Hz].
Qed.

Lemma unique_In l x : In x (np.unique l) <-> In x l.
Proof. unfold np.unique. now rewrite uniq_In, sort_In. Qed.

Lemma unique_sorted l : StronglySorted str_lt (np.unique l).
Proof. apply uniq_sorted, sort_sorted. Qed.

Lemma sorted_NoDup u : StronglySorted str_lt u -> NoDup u.
Proof.
  induction 1 as [|a u Hs IH Ha]; constructor; [|exact IH].
  intros Hin. rewrite Forall_forall in Ha.
  exact (str_lt_irrefl a (Ha a Hin)).
Qed.

Lemma unique_NoDup l : NoDup (np.unique l).
Proof. apply sorted_NoDup, unique_sorted. Qed.

Lemma index_nth x u : In x u -> nth_error u (np.index x u) = Some x.
Proof.
  induction u as [|z u IH]; simpl; [contradiction|].
  destruct (String.eqb_spec x z) as [->|N]; [reflexivity|].
  intros [E|H]; [congruence|]. now apply IH.
Qed.

Lemma index_lt x u : In x u -> np.index x u < length u.
Proof.
  intros H. apply nth_error_Some. now rewrite index_nth.
Qed.

(** In a strictly ascending array the position of an element is the number
    of elements below it. *)
Lemma index_below x u :
  StronglySorted str_lt u -> In x u ->
  np.index x u = length (filter (fun c => String.ltb c x) u).
Proof.
  induction 1 as [|z u Hs IH Hz]; simpl; [contradiction|].
  rewrite Forall_forall in Hz.
  destruct (String.eqb_spec x z) as [->|N]; intros Hin.
  - assert (Hz0 : String.ltb z z = false).
    { destruct (String.ltb z z) eqn:E; [|reflexivity].
      destruct (str_lt_irrefl z E). }
    rewrite Hz0.
    assert (Hnone : filter (fun c => String.ltb c z) u = []).
    { clear IH Hin Hs. induction u as [|w u IHu]; simpl; [reflexivity|].
      assert (Hw : str_lt z w) by (apply Hz; now left).
      destruct (String.ltb w z) eqn:E.
      - destruct (str_lt_asym _ _ Hw E).
      - apply IHu. intros v Hv. apply Hz. now right. }
    now rewrite Hnone.
  - destruct Hin as [E|Hin]; [congruence|].
    assert (Hlt : String.ltb z x = true) by (now apply Hz).
    rewrite Hlt. simpl. f_equal. now apply IH.
Qed.

Lemma filter_length_perm {A} (f : A -> bool) l l' :
  Permutation l l' -> length (filter f l) = length (filter f l').
Proof.
  induction 1 as [|a l l' _ IH|a b l|l l' l'' _ IH1 _ IH2]; simpl.
  - reflexivity.
  - destruct (f a); simpl; now rewrite IH.
  - destruct (f a), (f b); reflexivity.
  - now rewrite IH1.
Qed.

End UniqueFacts.

(* ================================================================== *)
(** ** Boolean indexing of a zero array *)

Section MaskFacts.

Lemma sum_count_true d :
  fold_right Z.add 0%Z (map Z.b2z d) = Z.of_nat (np.count_true d).
Proof.
  unfold np.count_true.
  induction d as [|b d IH]; [reflexivity|].
  cbn [map fold_right filter]. rewrite IH.
  destruct b; cbn [Z.b2z length]; lia.
Qed.

Lemma place_length mask : forall a v, length (np.place mask a v) = length a.
Proof.
  induction mask as [|b mask IH]; intros [|x a] v; simpl; try reflexivity.
  destruct b; [destruct v|]; simpl; now rewrite IH.
Qed.

Lemma compress_zeros mask :
  np.compress mask (repeat 0%Z (length mask))
  = repeat 0%Z (np.count_true mask).
Proof.
  unfold np.count_true.
  induction mask as [|b mask IH]; simpl; [reflexivity|].
  destruct b; simpl; now rewrite IH.
Qed.

Lemma source_one_axis k p : p < k -> np.source [k] [k] p = p.
Proof.
  intros H. unfold np.source.
  cbn [length Nat.sub skipn np.unravel np.clamp np.ravel np.prod fold_right].
  rewrite Nat.div_1_r, (Nat.mod_small p k) by exact H.
  destruct (Nat.eqb_spec k 1); lia.
Qed.

(** Adding a vector of the same length to a vector of zeros gives the
    vector's values. *)
Lemma iadd_zeros v k :
  np.shape v = [k] -> length (np.values v) = k ->
  np.iadd (np.FloatArray [k] (repeat 0%Z k)) v
  = inr (np.FloatArray [k] (np.values v)).
Proof.
  intros Hs Hl. unfold np.iadd. simpl np.fshape. simpl np.fdata. rewrite Hs.
  replace (np.broadcastable [k] [k]) with true
    by (unfold np.broadcastable; simpl; now rewrite Nat.eqb_refl).
  do 2 f_equal. rewrite repeat_length.
  match goal with |- map ?f _ = _ => set (g := f) end.
  assert (Hlen : length (map g (combine (seq 0 k) (repeat 0%Z k))) = k)
    by now rewrite length_map, length_combine, length_seq, repeat_length, Nat.min_id.
  apply nth_ext with (d := g (0, 0%Z)) (d' := 0%Z); [now rewrite Hlen|].
  intros n Hn. rewrite Hlen in Hn.
  rewrite map_nth, combine_nth by now rewrite length_seq, repeat_length.
  rewrite seq_nth, nth_repeat by exact Hn.
  subst g. cbn beta iota. now rewrite source_one_axis.
Qed.

(** What the new mask holds: the truth values of [v], in order, at the
    true positions of the old mask, and [False] elsewhere. *)
Lemma place_count mask : forall v,
  length v = np.count_true mask ->
  np.count_true (map np.nonzero (np.place mask (repeat 0%Z (length mask)) v))
  = np.count_true (map np.nonzero v).
Proof.
  unfold np.count_true.
  induction mask as [|b mask IH]; intros v Hv; simpl in *.
  - destruct v; [reflexivity|discriminate].
  - destruct b; simpl in *.
    + destruct v as [|w v]; [discriminate|]. simpl.
      injection Hv as Hv. specialize (IH v Hv).
      destruct (np.nonzero w); simpl; now rewrite IH.
    + now apply IH.
Qed.

Lemma place_subset mask : forall v p,
  nth p (map np.nonzero (np.place mask (repeat 0%Z (length mask)) v)) false = true ->
  nth p mask false = true.
Proof.
  induction mask as [|b mask IH]; intros v p; simpl.
  - destruct p; discriminate.
  - destruct b.
    + destruct p; [reflexivity|]. destruct v; simpl; apply IH.
    + destruct p; simpl; [discriminate|apply IH].
Qed.

Lemma place_all_true mask : forall v,
  length v = np.count_true mask ->
  Forall (fun z => np.nonzero z = true) v ->
  map np.nonzero (np.place mask (repeat 0%Z (length mask)) v) = mask.
Proof.
  unfold np.count_true.
  induction mask as [|b mask IH]; intros v Hv Hall; simpl in *; [reflexivity|].
  destruct b; simpl in *.
  - destruct v as [|w v]; [discriminate|]. simpl.
    injection Hv as Hv. inversion Hall as [|? ? Hw Hall']; subst.
    now rewrite Hw, (IH v Hv Hall').
  - now rewrite (IH v Hv Hall).
Qed.

Lemma truth_values a : np.truth a = map np.nonzero (np.values a).
Proof.
  destruct a as [s d|s d]; simpl; [|reflexivity].
  rewrite map_map. induction d as [|b d IH]; simpl; [reflexivity|].
  rewrite <- IH. now destruct b.
Qed.

End MaskFacts.

(* ================================================================== *)
(** ** [update_mask] *)

Section UpdateMask.

Context {matrix header affine_t : Type}.
Implicit Types (self : Mvp matrix header affine_t) (new_idx : np.ndarray).

(** The last assignment leaves every other attribute alone. *)
Lemma set_mask_index_same self :
  set_mask_index (mask_index self) self = self.
Proof. now destruct self. Qed.

(** [update_mask] as a case analysis on its three local steps. *)
Lemma update_mask_unfold new_idx self :
  update_mask new_idx self =
  match mask_index self with
  | None => (inl AttributeError, self)
  | Some cur =>
      if negb (Z.of_nat (np.size new_idx) =? np.sum cur)%Z then
        (inl (ValueError (mask_msg (np.size new_idx) (np.sum cur))), self)
      else
        match np.reshape cur (mask_shape self) with
        | inl e => (inl e, self)
        | inr idx =>
            match np.iadd_at (np.zeros (mask_shape self)) idx new_idx with
            | inl e => (inl e, self)
            | inr tmp_idx =>
                (inr tt,
                 set_mask_index (Some (np.astype_bool_ravel tmp_idx)) self)
            end
        end
  end.
Proof.
  unfold update_mask, bind, attr, call, raise, ret, assign.
  destruct (mask_index self) as [cur|]; [|reflexivity].
  destruct (negb _); [reflexivity|].
  destruct (np.reshape cur (mask_shape self)) as [e|idx]; [reflexivity|].
  destruct (np.iadd_at _ idx new_idx); reflexivity.
Qed.

(** The new mask of a valid call, written out. *)
Lemma update_mask_valid self new_idx s d :
  mask_index self = Some (np.BoolArray s d) ->
  valid_call self new_idx ->
  update_mask new_idx self =
  (inr tt,
   set_mask_index
     (Some (np.BoolArray [np.prod (mask_shape self)]
              (map np.nonzero
                 (np.place d (repeat 0%Z (length d)) (np.values new_idx)))))
     self).
Proof.
  intros Hm Hv. unfold valid_call in Hv. rewrite Hm in Hv.
  destruct Hv as (Hd & Hs & Hshape & Hlen).
  rewrite update_mask_unfold, Hm.
  assert (Hsize : np.size new_idx = np.count_true d).
  { unfold np.size. rewrite Hshape. simpl. lia. }
  rewrite Hsize. cbn [np.sum]. rewrite sum_count_true, Z.eqb_refl.
  cbn [negb]. unfold np.reshape, np.size. cbn [np.shape].
  rewrite Hs, Nat.eqb_refl.
  unfold np.iadd_at, np.zeros. cbn [np.fdata np.fshape].
  rewrite <- Hs, <- Hd, compress_zeros, repeat_length.
  rewrite (iadd_zeros new_idx (np.count_true d) Hshape Hlen).
  unfold np.astype_bool_ravel. cbn [np.fdata np.fshape].
  now rewrite Hd, Hs.
Qed.

Lemma write_row_length w r c a : length (np.write_row w r c a) = length a.
Proof.
  unfold np.write_row.
  now rewrite length_map, length_combine, length_seq, Nat.min_id.
Qed.

Lemma write_rows_length w rows : forall k v a,
  length (np.write_rows w rows k v a) = length a.
Proof.
  induction rows as [|r rows IH]; intros k v a; simpl; [reflexivity|].
  now rewrite IH, write_row_length.
Qed.

(** [a[idx] += v] changes neither the shape nor the number of elements. *)
Lemma iadd_at_shape a idx v a' :
  np.iadd_at a idx v = inr a' ->
  np.fshape a' = np.fshape a /\ length (np.fdata a') = length (np.fdata a).
Proof.
  unfold np.iadd_at. destruct idx as [s mask|s rows].
  - destruct (np.iadd _ v) as [e|t']; [discriminate|].
    intros [= <-]. simpl. now rewrite place_length.
  - destruct (np.fshape a) as [|n s'] eqn:Ea; [discriminate|].
    destruct (np.rows_of n rows) as [rs|]; [|discriminate].
    destruct (np.iadd _ v) as [e|t']; [discriminate|].
    intros [= <-]. simpl. now rewrite write_rows_length.
Qed.

(** A call that returns has stored a boolean vector with one element per
    voxel of [mask_shape], whatever the mask and the index were. *)
Lemma update_mask_returns new_idx self self' :
  update_mask new_idx self = (inr tt, self') ->
  flat_mask self' /\ mask_shape self' = mask_shape self.
Proof.
  rewrite update_mask_unfold.
  destruct (mask_index self) as [cur|]; [|discriminate].
  destruct (negb _); [discriminate|].
  destruct (np.reshape cur (mask_shape self)) as [e|idx]; [discriminate|].
  destruct (np.iadd_at _ idx new_idx) as [e|tmp_idx] eqn:E; [discriminate|].
  intros [= <-]. apply iadd_at_shape in E as [Hs Hl].
  split; [|now destruct self].
  exists (map np.nonzero (np.fdata tmp_idx)).
  unfold np.astype_bool_ravel. rewrite Hs.
  destruct self; simpl in *. split; [reflexivity|].
  now rewrite length_map, Hl, repeat_length.
Qed.

(** A call that raises has assigned nothing. *)
Lemma update_mask_raises new_idx self self' e :
  update_mask new_idx self = (inl e, self') -> self' = self.
Proof.
  rewrite update_mask_unfold.
  destruct (mask_index self) as [cur|]; [|now intros [= _ <-]].
  destruct (negb _); [now intros [= _ <-]|].
  destruct (np.reshape cur (mask_shape self)) as [e'|idx];
    [now intros [= _ <-]|].
  destruct (np.iadd_at _ idx new_idx); [now intros [= _ <-]|discriminate].
Qed.

End UpdateMask.

(* ================================================================== *)
(** ** Properties of [update_mask] *)

(** C1.  After a valid call the new mask has as many true entries as
    [new_idx] has entries that are not zero; and on the (2,2) mask
    [True, False, True, False] the index [1, 0] leaves
    [True, False, False, False]. *)
Theorem update_mask_count :
  (forall matrix header affine_t (self : Mvp matrix header affine_t) new_idx,
      valid_call self new_idx ->
      exists m',
        update_mask new_idx self = (inr tt, set_mask_index (Some m') self)
        /\ np.count_nonzero m' = np.count_nonzero new_idx)
  /\ update_mask (np.IntArray [2] [1; 0]%Z) scenario_mask
     = (inr tt,
        set_mask_index
          (Some (np.BoolArray [4] [true; false; false; false])) scenario_mask).
Proof.
  split; [|reflexivity].
  intros matrix header affine_t self new_idx Hv.
  destruct (mask_index self) as [[s d|s d]|] eqn:Hm;
    try (unfold valid_call in Hv; rewrite Hm in Hv; contradiction).
  eexists. split; [exact (update_mask_valid self new_idx s d Hm Hv)|].
  unfold valid_call in Hv. rewrite Hm in Hv. destruct Hv as (_ & _ & _ & Hlen).
  unfold np.count_nonzero. cbn [np.truth]. rewrite truth_values.
  now apply place_count.
Qed.

Lemma update_mask_count_witness :
  valid_call scenario_mask (np.BoolArray [2] [false; true])
  /\ exists m',
      update_mask (np.BoolArray [2] [false; true]) scenario_mask
      = (inr tt, set_mask_index (Some m') scenario_mask)
      /\ np.count_nonzero m' = 1.
Proof.
  split; [vm_compute; repeat split|].
  apply (proj1 update_mask_count). vm_compute. repeat split.
Defined.

(** C3.  When [new_idx.size] differs from the number of true entries of the
    mask, the call raises the ValueError whose text gives both numbers, and
    the object is as it was. *)
Theorem update_mask_size_mismatch
  {matrix header affine_t} (self : Mvp matrix header affine_t) new_idx s d :
  mask_index self = Some (np.BoolArray s d) ->
  np.size new_idx <> np.count_true d ->
  update_mask new_idx self =
  (inl (ValueError
          ("Shape of new index (" ++ repr_nat (np.size new_idx)
             ++ ") is not the same as the current pattern ("
             ++ repr_nat (np.count_true d) ++ ")!")%string),
   self).
Proof.
  intros Hm Hne. rewrite update_mask_unfold, Hm.
  cbn [np.sum]. rewrite sum_count_true.
  destruct (Z.eqb_spec (Z.of_nat (np.size new_idx)) (Z.of_nat (np.count_true d)))
    as [E|_]; [lia|].
  reflexivity.
Qed.

Lemma update_mask_size_mismatch_witness :
  update_mask (np.IntArray [3] [1; 0; 1]%Z) scenario_mask =
  (inl (ValueError
          "Shape of new index (3) is not the same as the current pattern (2)!"),
   scenario_mask).
Proof.
  apply (update_mask_size_mismatch scenario_mask (np.IntArray [3] [1; 0; 1]%Z)
           [4] [true; false; true; false]).
  - reflexivity.
  - vm_compute. lia.
Defined.

(** C6.  After a valid call every position that is true in the new mask was
    true in the old one. *)
Theorem update_mask_subset
  {matrix header affine_t} (self : Mvp matrix header affine_t) new_idx s d :
  mask_index self = Some (np.BoolArray s d) ->
  valid_call self new_idx ->
  exists d',
    update_mask new_idx self =
    (inr tt,
     set_mask_index
       (Some (np.BoolArray [np.prod (mask_shape self)] d')) self)
    /\ forall p, nth p d' false = true -> nth p d false = true.
Proof.
  intros Hm Hv. eexists. split; [exact (update_mask_valid self new_idx s d Hm Hv)|].
  intros p. apply place_subset.
Qed.

Lemma update_mask_subset_witness :
  exists d',
    update_mask (np.IntArray [2] [0; 5]%Z) scenario_mask =
    (inr tt, set_mask_index (Some (np.BoolArray [4] d')) scenario_mask)
    /\ forall p, nth p d' false = true
                 -> nth p [true; false; true; false] false = true.
Proof.
  apply (update_mask_subset scenario_mask (np.IntArray [2] [0; 5]%Z)
           [4] [true; false; true; false]).
  - reflexivity.
  - vm_compute. repeat split.
Defined.

(** C8.  Whether it returns or raises, [update_mask] assigns no attribute
    other than [mask_index]: [X], [cope_labels], [y], [mask_shape],
    [nifti_header] and [affine] are what they were. *)
Theorem update_mask_frame
  {matrix header affine_t} (self : Mvp matrix header affine_t) new_idx :
  let self' := snd (update_mask new_idx self) in
  X self' = X self /\ cope_labels self' = cope_labels self
  /\ y self' = y self /\ mask_shape self' = mask_shape self
  /\ nifti_header self' = nifti_header self /\ affine self' = affine self
  /\ self' = set_mask_index (mask_index self') self.
Proof.
  destruct (update_mask new_idx self) as [[e|[]] self'] eqn:E; cbn [snd].
  - apply update_mask_raises in E. subst self'.
    rewrite set_mask_index_same. repeat split.
  - rewrite update_mask_unfold in E.
    destruct (mask_index self) as [cur|]; [|discriminate].
    destruct (negb _); [discriminate|].
    destruct (np.reshape cur (mask_shape self)) as [e|idx]; [discriminate|].
    destruct (np.iadd_at _ idx new_idx) as [e|tmp_idx]; [discriminate|].
    injection E as <-. destruct self. repeat split.
Qed.

(** C9.  A valid call whose index has no zero entry stores the entries of
    the old mask again; when the old mask was the flat vector the container
    keeps, the object after the call is the object before it. *)
Theorem update_mask_all_true
  {matrix header affine_t} (self : Mvp matrix header affine_t) new_idx s d :
  mask_index self = Some (np.BoolArray s d) ->
  valid_call self new_idx ->
  Forall (fun b => b = true) (np.truth new_idx) ->
  update_mask new_idx self =
  (inr tt,
   set_mask_index (Some (np.BoolArray [np.prod (mask_shape self)] d)) self)
  /\ (s = [np.prod (mask_shape self)] -> update_mask new_idx self = (inr tt, self)).
Proof.
  intros Hm Hv Hall.
  assert (E : update_mask new_idx self =
              (inr tt,
               set_mask_index
                 (Some (np.BoolArray [np.prod (mask_shape self)] d)) self)).
  { rewrite (update_mask_valid self new_idx s d Hm Hv).
    unfold valid_call in Hv. rewrite Hm in Hv. destruct Hv as (_ & _ & _ & Hlen).
    rewrite place_all_true; [reflexivity|exact Hlen|].
    rewrite truth_values in Hall. now apply Forall_map in Hall. }
  split; [exact E|].
  intros ->. rewrite E, <- Hm. now rewrite set_mask_index_same.
Qed.

Lemma update_mask_all_true_witness :
  update_mask (np.BoolArray [2] [true; true]) scenario_mask
  = (inr tt, scenario_mask).
Proof.
  apply (update_mask_all_true scenario_mask (np.BoolArray [2] [true; true])
           [4] [true; false; true; false]).
  - reflexivity.
  - vm_compute. repeat split.
  - repeat constructor.
  - reflexivity.
Defined.

(** C10.  After a call that returns, and so after any run of calls that all
    return, [mask_index] is a boolean vector with one axis whose length is
    the product of [mask_shape], whatever dtype and shape the old mask and
    the indices had; [mask_shape] itself is untouched, and the next call
    with one entry per selected voxel returns as well. *)
Theorem update_mask_keeps_flat
  {matrix header affine_t} (self self' : Mvp matrix header affine_t) idxs :
  idxs <> [] ->
  update_masks idxs self = (inr tt, self') ->
  mask_shape self' = mask_shape self
  /\ exists d,
      mask_index self' = Some (np.BoolArray [np.prod (mask_shape self)] d)
      /\ length d = np.prod (mask_shape self)
      /\ forall next,
          np.shape next = [np.count_true d] ->
          length (np.values next) = np.count_true d ->
          exists self'', update_mask next self' = (inr tt, self'').
Proof.
  revert self. induction idxs as [|i idxs IH]; intros self Hne; [congruence|].
  cbn [update_masks]. unfold bind at 1.
  destruct (update_mask i self) as [[e|[]] s1] eqn:E; [discriminate|].
  destruct (update_mask_returns _ _ _ E) as [(d & Hd & Hl) Hs].
  destruct idxs as [|j idxs].
  - cbn [update_masks]. unfold ret. intros [= <-].
    split; [exact Hs|]. rewrite Hs in Hd, Hl.
    exists d. repeat split; try assumption.
    intros next Hshape Hlen. eexists.
    apply (update_mask_valid s1 next _ d Hd).
    unfold valid_call. rewrite Hd, Hs. cbn [np.prod fold_right].
    repeat split; try assumption; lia.
  - intros Hrun. destruct (IH s1 ltac:(discriminate) Hrun) as [Hs' Hrest].
    rewrite Hs in Hs', Hrest. now split.
Qed.

Lemma update_mask_keeps_flat_witness :
  let self' := snd (update_masks scenario_indices scenario_int_mask) in
  mask_shape self' = [2; 2]
  /\ exists d,
      mask_index self' = Some (np.BoolArray [4] d)
      /\ length d = 4
      /\ forall next,
          np.shape next = [np.count_true d] ->
          length (np.values next) = np.count_true d ->
          exists self'', update_mask next self' = (inr tt, self'').
Proof.
  apply (update_mask_keeps_flat scenario_int_mask _ scenario_indices).
  - discriminate.
  - reflexivity.
Defined.

(* ================================================================== *)
(** ** [update_metadata] *)

Section LabelFacts.

Lemma count_true_eq_elem cl c :
  np.count_true (np.eq_elem cl c) = count_occ string_dec cl c.
Proof.
  unfold np.count_true, np.eq_elem.
  induction cl as [|x cl IH]; simpl; [reflexivity|].
  destruct (String.eqb_spec x c) as [E|N]; destruct (string_dec x c);
    try contradiction; simpl; now rewrite IH.
Qed.

Lemma where_from_In b : forall k i,
  In i (np.where_from k b) <-> k <= i /\ nth_error b (i - k) = Some true.
Proof.
  induction b as [|t b IH]; intros k i; simpl.
  - split; [contradiction|]. intros [_ H]. now destruct (i - k).
  - assert (Hrec : In i (np.where_from (S k) b)
                   <-> k < i /\ nth_error (t :: b) (i - k) = Some true).
    { rewrite IH. split; intros [H1 H2]; (split; [lia|]).
      - now replace (i - k) with (S (i - S k)) by lia.
      - now replace (i - k) with (S (i - S k)) in H2 by lia. }
    destruct t; simpl In; rewrite ?Hrec.
    + split.
      * intros [<-|[H1 H2]]; [|split; [lia|exact H2]].
        now rewrite Nat.sub_diag.
      * intros [H1 H2]. destruct (Nat.eq_dec k i) as [E|N]; [now left|].
        right. split; [lia|exact H2].
    + split; intros [H1 H2].
      * split; [lia|exact H2].
      * destruct (Nat.eq_dec k i) as [<-|N].
        -- rewrite Nat.sub_diag in H2. discriminate.
        -- split; [lia|exact H2].
Qed.

Lemma where_from_NoDup b : forall k, NoDup (np.where_from k b).
Proof.
  induction b as [|t b IH]; intros k; simpl; [constructor|].
  destruct t; [|apply IH].
  constructor; [|apply IH].
  rewrite where_from_In. lia.
Qed.

(** Sample [i] is listed for condition [c] exactly when its label is [c]. *)
Lemma where_eq_elem_In cl c i :
  In i (np.where_ (np.eq_elem cl c)) <-> nth_error cl i = Some c.
Proof.
  unfold np.where_, np.eq_elem.
  rewrite where_from_In, Nat.sub_0_r, nth_error_map.
  destruct (nth_error cl i) as [x|]; simpl.
  - destruct (String.eqb_spec x c) as [->|N]; split; try tauto.
    + intros _. split; [lia|reflexivity].
    + intros [_ [=]].
    + intros [= E]. contradiction.
  - split; [intros [_ [=]]|discriminate].
Qed.

Lemma positions_NoDup cl names :
  NoDup names ->
  NoDup (concat (map (fun cls => np.where_ (np.eq_elem cl cls)) names)).
Proof.
  induction 1 as [|c names Hc Hn IH]; simpl; [constructor|].
  apply NoDup_app; [apply where_from_NoDup|exact IH|].
  intros i Hi Hin. apply where_eq_elem_In in Hi.
  apply in_concat in Hin as (l & Hl & Hil).
  apply in_map_iff in Hl as (c' & <- & Hc').
  apply where_eq_elem_In in Hil. congruence.
Qed.

(** The position vectors of the distinct names list every sample once. *)
Lemma positions_partition cl :
  Permutation
    (concat (map (fun cls => np.where_ (np.eq_elem cl cls)) (np.unique cl)))
    (seq 0 (length cl)).
Proof.
  apply NoDup_Permutation.
  - apply positions_NoDup, unique_NoDup.
  - apply seq_NoDup.
  - intros i. rewrite in_seq, in_concat. split.
    + intros (l & Hl & Hil).
      apply in_map_iff in Hl as (c & <- & Hc).
      apply where_eq_elem_In in Hil.
      assert (nth_error cl i <> None) by congruence.
      apply nth_error_Some in H. lia.
    + intros [_ Hi]. simpl in Hi.
      destruct (nth_error cl i) as [c|] eqn:E;
        [|apply nth_error_None in E; lia].
      exists (np.where_ (np.eq_elem cl c)). split.
      * apply in_map_iff. exists c. split; [reflexivity|].
        apply unique_In. eapply nth_error_In, E.
      * now apply where_eq_elem_In.
Qed.

(** The code of a label is its rank among the distinct labels. *)
Lemma index_rank cl x :
  In x cl -> np.index x (np.unique cl) = rank x cl.
Proof.
  intros Hin. unfold rank.
  rewrite index_below by (apply unique_sorted || now apply unique_In).
  apply filter_length_perm, NoDup_Permutation.
  - apply unique_NoDup.
  - apply NoDup_nodup.
  - intros c. now rewrite unique_In, nodup_In.
Qed.

End LabelFacts.

Section UpdateMetadata.

Context {matrix header affine_t : Type}.
Implicit Types (self : Mvp matrix header affine_t).

(** What the method assigns when the labels are an array: every derived
    attribute, and nothing else. *)
Lemma update_metadata_some self cl :
  cope_labels self = Some cl ->
  exists self',
    update_metadata self = (inr tt, self')
    /\ y self' = Some (map (fun x => np.index x (np.unique cl)) cl)
    /\ n_trials self' = Some (length cl)
    /\ cope_names self' = Some (np.unique cl)
    /\ n_cope self' = Some (length (np.unique cl))
    /\ n_inst self'
       = Some (map (fun cls => np.count_true (np.eq_elem cl cls)) cl)
    /\ class_idx self'
       = Some (map (fun cls => np.eq_elem cl cls) (np.unique cl))
    /\ trial_idx self'
       = Some (map (fun cls => np.where_ (np.eq_elem cl cls)) (np.unique cl))
    /\ cope_labels self' = Some cl.
Proof.
  intros H. destruct self; simpl in H; subst.
  unfold update_metadata, bind, attr, call, assign, ret, raise.
  cbn -[np.unique np.index np.eq_elem np.where_ np.count_true].
  eexists. split; [reflexivity|]. repeat split.
Qed.

(** Without labels the encoder raises before anything is assigned. *)
Lemma update_metadata_none self :
  cope_labels self = None ->
  update_metadata self = (inl (ValueError "bad input shape ()"%string), self).
Proof.
  intros H. destruct self; simpl in H; subst.
  unfold update_metadata, bind, attr, call, assign, ret, raise.
  reflexivity.
Qed.

End UpdateMetadata.

(* ================================================================== *)
(** ** Properties of [update_metadata] *)

(** C2.  On the labels A, B, A, C, B, A the method stores the names A, B, C,
    the codes 0, 1, 0, 2, 1, 0, the positions [0,2,5], [1,4], [3] and the
    counts 3, 2, 3, 1, 2, 3; and for any labels [n_inst] has one entry per
    sample, the number of samples that carry that sample's label. *)
Theorem update_metadata_scenario :
  forall matrix header affine_t (self : Mvp matrix header affine_t) cl,
    cope_labels self = Some cl ->
    exists self',
      update_metadata self = (inr tt, self')
      /\ n_inst self' = Some (map (fun x => count_occ string_dec cl x) cl)
      /\ (cl = scenario_labels ->
          cope_names self' = Some ["A"; "B"; "C"]%string
          /\ y self' = Some [0; 1; 0; 2; 1; 0]
          /\ trial_idx self' = Some [[0; 2; 5]; [1; 4]; [3]]
          /\ n_inst self' = Some [3; 2; 3; 1; 2; 3]).
Proof.
  intros matrix header affine_t self cl H.
  destruct (update_metadata_some self cl H)
    as (self' & Hrun & Hy & _ & Hnames & _ & Hinst & _ & Htrial & _).
  exists self'. split; [exact Hrun|]. split.
  - rewrite Hinst. f_equal. apply map_ext. intros c. apply count_true_eq_elem.
  - intros ->. rewrite Hnames, Hy, Htrial, Hinst. repeat split.
Qed.

Lemma update_metadata_scenario_witness :
  exists self',
    update_metadata (example_mvp (Some scenario_labels) None []) = (inr tt, self')
    /\ cope_names self' = Some ["A"; "B"; "C"]%string
    /\ y self' = Some [0; 1; 0; 2; 1; 0]
    /\ trial_idx self' = Some [[0; 2; 5]; [1; 4]; [3]]
    /\ n_inst self' = Some [3; 2; 3; 1; 2; 3].
Proof.
  destruct (update_metadata_scenario unit unit unit
              (example_mvp (Some scenario_labels) None []) scenario_labels
              eq_refl) as (self' & Hrun & _ & Hscen).
  exists self'. split; [exact Hrun|]. exact (Hscen eq_refl).
Defined.

(** C4.  The codes are as many as the labels; two samples have the same
    code exactly when they have the same label; the code of a label is its
    rank among the distinct labels in byte-wise order; and any container
    with the same labels gets the same codes. *)
Theorem update_metadata_encoding :
  forall matrix header affine_t (self other : Mvp matrix header affine_t) cl,
    cope_labels self = Some cl ->
    exists self' enc,
      update_metadata self = (inr tt, self')
      /\ y self' = Some enc
      /\ length enc = length cl
      /\ (forall i j a b,
             nth_error cl i = Some a -> nth_error cl j = Some b ->
             (a = b <-> nth_error enc i = nth_error enc j))
      /\ (forall i a, nth_error cl i = Some a -> nth_error enc i = Some (rank a cl))
      /\ (cope_labels other = Some cl ->
          y (snd (update_metadata other)) = Some enc).
Proof.
  intros matrix header affine_t self other cl H.
  destruct (update_metadata_some self cl H) as (self' & Hrun & Hy & _).
  exists self', (map (fun x => np.index x (np.unique cl)) cl).
  split; [exact Hrun|]. split; [exact Hy|]. split; [apply length_map|].
  split; [|split].
  - intros i j a b Ha Hb. rewrite !nth_error_map, Ha, Hb. simpl.
    split; [now intros ->|]. intros [= E].
    assert (Ia : In a (np.unique cl)) by (eapply unique_In, nth_error_In, Ha).
    assert (Ib : In b (np.unique cl)) by (eapply unique_In, nth_error_In, Hb).
    apply index_nth in Ia, Ib. rewrite E in Ia. congruence.
  - intros i a Ha. rewrite nth_error_map, Ha. simpl. f_equal.
    apply index_rank. eapply nth_error_In, Ha.
  - intros Ho.
    destruct (update_metadata_some other cl Ho) as (o' & Ho' & Hyo & _).
    now rewrite Ho'.
Qed.

Lemma update_metadata_encoding_witness :
  exists self' enc,
    update_metadata (example_mvp (Some scenario_labels) None []) = (inr tt, self')
    /\ y self' = Some enc
    /\ length enc = 6
    /\ nth_error enc 3 = Some (rank "C" scenario_labels).
Proof.
  destruct (update_metadata_encoding unit unit unit
              (example_mvp (Some scenario_labels) None [])
              (example_mvp (Some scenario_labels) None [2]) scenario_labels
              eq_refl) as (self' & enc & Hrun & Hy & Hlen & _ & Hrank & _).
  exists self', enc. repeat split; try assumption.
  apply Hrank. reflexivity.
Defined.

(** C5.  The position vectors together list every sample index once: their
    concatenation is a rearrangement of 0, ..., n_trials - 1; and the
    boolean vector of each condition has as many true entries as the labels
    hold that condition's name. *)
Theorem update_metadata_partition :
  forall matrix header affine_t (self : Mvp matrix header affine_t) cl,
    cope_labels self = Some cl ->
    exists self' names cidx tidx,
      update_metadata self = (inr tt, self')
      /\ cope_names self' = Some names
      /\ class_idx self' = Some cidx
      /\ trial_idx self' = Some tidx
      /\ n_trials self' = Some (length cl)
      /\ length cidx = length names /\ length tidx = length names
      /\ Permutation (concat tidx) (seq 0 (length cl))
      /\ NoDup (concat tidx)
      /\ (forall i c,
             nth_error names i = Some c ->
             exists b,
               nth_error cidx i = Some b
               /\ length b = length cl
               /\ np.count_true b = count_occ string_dec cl c
               /\ nth_error tidx i = Some (np.where_ b)).
Proof.
  intros matrix header affine_t self cl H.
  destruct (update_metadata_some self cl H)
    as (self' & Hrun & _ & Hn & Hnames & _ & _ & Hc & Ht & _).
  exists self', (np.unique cl),
    (map (fun cls => np.eq_elem cl cls) (np.unique cl)),
    (map (fun cls => np.where_ (np.eq_elem cl cls)) (np.unique cl)).
  repeat (split; [first [assumption | apply length_map]|]).
  split; [apply positions_partition|].
  split; [apply positions_NoDup, unique_NoDup|].
  intros i c Hi. exists (np.eq_elem cl c).
  rewrite !nth_error_map, Hi. simpl.
  repeat split; [apply length_map|apply count_true_eq_elem].
Qed.

Lemma update_metadata_partition_witness :
  exists self' tidx,
    update_metadata (example_mvp (Some scenario_labels) None []) = (inr tt, self')
    /\ trial_idx self' = Some tidx
    /\ Permutation (concat tidx) [0; 1; 2; 3; 4; 5].
Proof.
  destruct (update_metadata_partition unit unit unit
              (example_mvp (Some scenario_labels) None []) scenario_labels
              eq_refl)
    as (self' & names & cidx & tidx & Hrun & _ & _ & Ht & _ & _ & _ & Hp & _).
  exists self', tidx. repeat split; assumption.
Defined.

(** C7, the part that fails.  On an empty array of labels the method
    returns; nothing is raised. *)
Lemma update_metadata_empty_returns :
  cope_labels (example_mvp (Some []) None []) = Some []
  /\ fst (update_metadata (example_mvp (Some []) None [])) = inr tt
  /\ ~ exists e, fst (update_metadata (example_mvp (Some []) None [])) = inl e.
Proof.
  split; [reflexivity|]. split; [reflexivity|].
  intros [e H]. discriminate H.
Qed.

(** C7, as the code has it.  Without labels ([None]) the call fails with
    the ValueError of the label encoder and the object is unchanged; on an
    empty array it returns, and every derived attribute is empty. *)
Theorem update_metadata_degenerate :
  forall matrix header affine_t (self : Mvp matrix header affine_t),
    (cope_labels self = None ->
     exists msg, update_metadata self = (inl (ValueError msg), self))
    /\ (cope_labels self = Some [] ->
        exists self',
          update_metadata self = (inr tt, self')
          /\ y self' = Some [] /\ n_trials self' = Some 0
          /\ cope_names self' = Some [] /\ n_cope self' = Some 0
          /\ n_inst self' = Some [] /\ class_idx self' = Some []
          /\ trial_idx self' = Some []).
Proof.
  intros matrix header affine_t self. split.
  - intros H. eexists. now apply update_metadata_none.
  - intros H.
    destruct (update_metadata_some self [] H)
      as (self' & Hrun & Hy & Hn & Hnames & Hnc & Hi & Hc & Ht & _).
    exists self'. repeat split; assumption.
Qed.

Lemma update_metadata_degenerate_witness :
  (exists msg,
      update_metadata (example_mvp None None []) =
      (inl (ValueError msg), example_mvp None None []))
  /\ exists self',
      update_metadata (example_mvp (Some []) None []) = (inr tt, self')
      /\ y self' = Some [] /\ n_trials self' = Some 0.
Proof.
  split.
  - apply (proj1 (update_metadata_degenerate unit unit unit
                    (example_mvp None None []))). reflexivity.
  - destruct (proj2 (update_metadata_degenerate unit unit unit
                       (example_mvp (Some []) None [])) eq_refl)
      as (self' & Hrun & Hy & Hn & _).
    exists self'. repeat split; assumption.
Defined.


(* ================================================================== *)
(** ** Strings and paths *)

Section StrFacts.

Local Open Scope string_scope.

Variable c : ascii.



Lemma free_of_cons x s :
  free_of c (String x s) <-> Ascii.eqb x c = false /\ free_of c s.
Proof. unfold free_of. simpl. apply orb_false_iff. Qed.

Lemma rfind1_free s : free_of c s -> str.rfind1 c s = 0.
Proof.
  induction s as [|x s IH]; [reflexivity|].
  intros H. apply free_of_cons in H as [Hx Hs].
  simpl. now rewrite (IH Hs), Hx.
Qed.

Lemma rfind1_app h b :
  free_of c b -> str.rfind1 c (h ++ String c b) = S (String.length h).
Proof.
  intros Hb. induction h as [|x h IH]; simpl.
  - now rewrite (rfind1_free b Hb), Ascii.eqb_refl.
  - now rewrite IH.
Qed.

Lemma slice_from_app h t : str.slice_from (String.length h) (h ++ t) = t.
Proof.
  induction h as [|x h IH]; simpl; [now destruct t|exact IH].
Qed.

Lemma slice_to_app h t : str.slice_to (String.length h) (h ++ t) = h.
Proof.
  induction h as [|x h IH]; simpl; [now destruct t|now rewrite IH].
Qed.

(** A string either has no [c] or splits at its last [c]. *)
Lemma last_occurrence s :
  free_of c s \/ exists h b, s = h ++ String c b /\ free_of c b.
Proof.
  induction s as [|x s [IH|(h & b & -> & Hb)]].
  - now left.
  - destruct (Ascii.eqb x c) eqn:E.
    + right. apply Ascii.eqb_eq in E as ->. now exists "", s.
    + left. now apply free_of_cons.
  - right. now exists (String x h), b.
Qed.

Lemma rstrip_free s : free_of c s -> str.rstrip c s = s.
Proof.
  induction s as [|x s IH]; [reflexivity|].
  intros H. apply free_of_cons in H as [Hx Hs].
  simpl. rewrite (IH Hs), Hx. now destruct s.
Qed.

Lemma rstrip_snoc s : str.rstrip c (s ++ String c "") = str.rstrip c s.
Proof.
  induction s as [|x s IH]; simpl.
  - now rewrite Ascii.eqb_refl.
  - now rewrite IH.
Qed.

Lemma rstrip_app_free pre s :
  free_of c s -> s <> "" -> str.rstrip c (pre ++ s) = pre ++ s.
Proof.
  intros Hs Hne. induction pre as [|x pre IH]; simpl.
  - now apply rstrip_free.
  - rewrite IH. destruct (pre ++ s) eqn:E; [|reflexivity].
    destruct pre; simpl in E; [contradiction|discriminate].
Qed.

Lemma times_app_inv pre x rest n :
  pre ++ String x rest = str.times c n -> x = c.
Proof.
  revert n. induction pre as [|z pre IH]; intros [|n]; simpl; try discriminate.
  - now intros [= -> _].
  - intros [= _ H]. now apply IH with n.
Qed.






End StrFacts.

Section SplitFacts.

Local Open Scope string_scope.

Variables c x : ascii.

(** No piece of [s.split(c)] holds a [c]. *)
Lemma split_pieces_free s : Forall (free_of c) (str.split c s).
Proof.
  induction s as [|a s IH]; simpl; [now repeat constructor|].
  destruct (Ascii.eqb a c) eqn:E; [now constructor|].
  destruct (str.split c s) as [|h t].
  - constructor; [|constructor]. now apply free_of_cons.
  - inversion IH; subst. constructor; [|assumption].
    now apply free_of_cons.
Qed.

(** A character that is not in [s] is in none of its pieces. *)
Lemma split_pieces_keep s : free_of x s -> Forall (free_of x) (str.split c s).
Proof.
  induction s as [|a s IH]; simpl; [now repeat constructor|].
  intros H. apply free_of_cons in H as [Ha Hs]. specialize (IH Hs).
  destruct (Ascii.eqb a c); [now constructor|].
  destruct (str.split c s) as [|h t].
  - constructor; [|constructor]. now apply free_of_cons.
  - inversion IH; subst. constructor; [|assumption].
    now apply free_of_cons.
Qed.

Lemma Forall_hd (P : string -> Prop) l : Forall P l -> P "" -> P (hd "" l).
Proof. now destruct 1. Qed.

Lemma Forall_last (P : string -> Prop) l : Forall P l -> P "" -> P (last l "").
Proof.
  induction 1 as [|a l Ha Hl IH]; intros H0; [exact H0|].
  destruct l; [exact Ha|now apply IH].
Qed.

End SplitFacts.

Section PathFacts.

Local Open Scope string_scope.

Lemma append_assoc a b c : (a ++ b) ++ c = a ++ b ++ c.
Proof. induction a as [|x a IH]; simpl; [reflexivity|now rewrite IH]. Qed.

Lemma length_append a b :
  String.length (a ++ b) = String.length a + String.length b.
Proof. induction a as [|x a IH]; simpl; [reflexivity|now rewrite IH]. Qed.

Lemma basename_app h b :
  free_of op.sep b -> op.basename (h ++ String op.sep b) = b.
Proof.
  intros Hb. unfold op.basename. rewrite (rfind1_app _ h b Hb).
  change (S (String.length h)) with (String.length (String op.sep "") + String.length h).
  replace (String.length (String op.sep "") + String.length h)
    with (String.length (h ++ String op.sep "")).
  - replace (h ++ String op.sep b) with ((h ++ String op.sep "") ++ b).
    + apply slice_from_app.
    + now rewrite append_assoc.
  - rewrite length_append. simpl. lia.
Qed.

Lemma basename_of_free p : free_of op.sep p -> op.basename p = p.
Proof.
  intros H. unfold op.basename. now rewrite (rfind1_free _ p H).
Qed.

(** A base name never holds a slash. *)
Lemma basename_free p : free_of op.sep (op.basename p).
Proof.
  destruct (last_occurrence op.sep p) as [H|(h & b & -> & Hb)].
  - now rewrite basename_of_free.
  - now rewrite basename_app.
Qed.

Lemma dirname_of_free p : free_of op.sep p -> op.dirname p = "".
Proof.
  intros H. unfold op.dirname. rewrite (rfind1_free _ p H).
  now destruct p.
Qed.

(** The head of [pre/sub/b] is [pre/sub] when [sub] is a proper name. *)
Lemma dirname_app pre sub b :
  free_of op.sep sub -> sub <> "" -> free_of op.sep b ->
  op.dirname (pre ++ sub ++ String op.sep b) = pre ++ sub.
Proof.
  intros Hs Hne Hb. unfold op.dirname.
  replace (pre ++ sub ++ String op.sep b)
    with ((pre ++ sub) ++ String op.sep b) by now rewrite append_assoc.
  rewrite (rfind1_app _ (pre ++ sub) b Hb).
  assert (Hhead : str.slice_to (S (String.length (pre ++ sub)))
                    ((pre ++ sub) ++ String op.sep b)
                  = (pre ++ sub) ++ String op.sep "").
  { replace (S (String.length (pre ++ sub)))
      with (String.length ((pre ++ sub) ++ String op.sep ""))
      by (rewrite length_append; simpl; lia).
    replace ((pre ++ sub) ++ String op.sep b)
      with (((pre ++ sub) ++ String op.sep "") ++ b)
      by now rewrite (append_assoc (pre ++ sub)).
    apply slice_to_app. }
  rewrite Hhead.
  assert (Hnonempty : String.eqb ((pre ++ sub) ++ String op.sep "") "" = false).
  { apply String.eqb_neq. destruct (pre ++ sub); discriminate. }
  assert (Hmixed : String.eqb ((pre ++ sub) ++ String op.sep "")
                     (str.times op.sep
                        (String.length ((pre ++ sub) ++ String op.sep "")))
                   = false).
  { apply String.eqb_neq. intros E.
    destruct sub as [|a sub']; [contradiction|].
    apply free_of_cons in Hs as [Ha _].
    rewrite !append_assoc in E. simpl in E.
    apply times_app_inv in E. subst a.
    now rewrite Ascii.eqb_refl in Ha. }
  rewrite Hnonempty, Hmixed. simpl.
  rewrite rstrip_snoc. now apply rstrip_app_free.
Qed.

End PathFacts.

(* ================================================================== *)
(** ** Properties of [__init__] *)

Section InitFacts.

Local Open Scope string_scope.


Lemma basename_after_prefix pre name :
  path_prefix pre -> free_of op.sep name -> op.basename (pre ++ name) = name.
Proof.
  intros [->|(q & ->)] Hn.
  - now apply basename_of_free.
  - rewrite append_assoc. now apply basename_app.
Qed.


End InitFacts.

(** X1.  Whatever the arguments, the stored run name holds no slash, no dot
    and no underscore, and the subject name and the mask name hold no
    slash. *)
Theorem init_names_clean {threshold}
  (dir : string) (thr : threshold) b2t space (mp : option string) rc cl :
  let o := __init__ dir thr b2t space mp rc cl in
  free_of "/" (run_name o) /\ free_of "." (run_name o)
  /\ free_of "_" (run_name o)
  /\ free_of "/" (sub_name o) /\ free_of "/" (mask_name o).
Proof.
  cbn [__init__ run_name sub_name mask_name].
  assert (Hb : free_of "/" (op.basename dir)) by apply basename_free.
  repeat split.
  - apply Forall_last; [|reflexivity]. apply split_pieces_keep.
    apply Forall_hd; [|reflexivity]. now apply split_pieces_keep.
  - apply Forall_last; [|reflexivity]. apply split_pieces_keep.
    apply Forall_hd; [|reflexivity]. apply split_pieces_free.
  - apply Forall_last; [|reflexivity]. apply split_pieces_free.
  - apply basename_free.
  - destruct mp; [apply basename_free|reflexivity].
Qed.



(** X3.  A directory given with a trailing slash is read one level off:
    the subject name is the directory's own name and the run name is
    empty. *)
Theorem init_trailing_slash {threshold}
  (thr : threshold) b2t space (mp : option string) rc cl (pre name : string) :
  path_prefix pre -> name <> ""%string -> free_of "/" name ->
  let o := __init__ (pre ++ name ++ "/")%string thr b2t space mp rc cl in
  sub_name o = name /\ run_name o = ""%string.
Proof.
  intros Hpre Hne Hname. cbn [__init__ run_name sub_name].
  change (name ++ "/")%string with (name ++ String op.sep "")%string.
  split.
  - rewrite (dirname_app pre name "" Hname Hne eq_refl).
    now apply basename_after_prefix.
  - rewrite <- append_assoc, (basename_app _ "" eq_refl). reflexivity.
Qed.

Lemma init_trailing_slash_witness :
  let o := __init__ "/data/sub001/FE_run1.feat/" 0%Z true "mni" None [] true in
  sub_name o = "FE_run1.feat"%string /\ run_name o = ""%string.
Proof.
  apply (init_trailing_slash 0%Z true "mni"%string None [] true
           "/data/sub001/" "FE_run1.feat").
  - right. now exists "/data/sub001"%string.
  - discriminate.
  - reflexivity.
Defined.

(** X4.  A directory given as a bare name, without any slash, has an empty
    subject name. *)
Theorem init_bare_name {threshold}
  (thr : threshold) b2t space (mp : option string) rc cl (dir : string) :
  free_of "/" dir ->
  sub_name (__init__ dir thr b2t space mp rc cl) = ""%string.
Proof.
  intros H. cbn [__init__ sub_name]. now rewrite (dirname_of_free dir H).
Qed.

Lemma init_bare_name_witness :
  sub_name (__init__ "FE_run1.feat" 0%Z true "mni" None [] true) = ""%string.
Proof.
  apply (init_bare_name 0%Z true "mni"%string None [] true "FE_run1.feat").
  reflexivity.
Defined.

(** X5.  The mask name is the name of the directory the mask file lies in,
    not of the file; without a mask path it is WholeBrain. *)
Theorem init_mask_name {threshold}
  (dir : string) (thr : threshold) b2t space rc cl (pre parent file : string) :
  path_prefix pre -> parent <> ""%string ->
  free_of "/" parent -> free_of "/" file ->
  mask_name (__init__ dir thr b2t space
               (Some (pre ++ parent ++ "/" ++ file)%string) rc cl) = parent
  /\ mask_name (__init__ dir thr b2t space None rc cl) = "WholeBrain"%string.
Proof.
  intros Hpre Hne Hparent Hfile. cbn [__init__ mask_name].
  split; [|reflexivity].
  change ("/" ++ file)%string with (String op.sep file).
  rewrite (dirname_app pre parent file Hparent Hne Hfile).
  now apply basename_after_prefix.
Qed.

Lemma init_mask_name_witness :
  mask_name (__init__ "/data/sub001/FE_run1.feat" 0%Z true "mni"
               (Some "/masks/roi/amygdala.nii.gz"%string) [] true)
  = "roi"%string.
Proof.
  apply (init_mask_name "/data/sub001/FE_run1.feat"%string 0%Z true
           "mni"%string [] true "/masks/" "roi" "amygdala.nii.gz").
  - right. now exists "/masks"%string.
  - discriminate.
  - reflexivity.
  - reflexivity.
Defined.

(* ================================================================== *)
(** ** More on [update_mask] *)

Section RefineFacts.

Lemma refined_nil v : refined [] v = [].
Proof. reflexivity. Qed.

Lemma refined_false m v : refined (false :: m) v = false :: refined m v.
Proof. reflexivity. Qed.

Lemma refined_true m w v :
  refined (true :: m) (w :: v) = np.nonzero w :: refined m v.
Proof. reflexivity. Qed.

Lemma refined_true_nil m : refined (true :: m) [] = false :: refined m [].
Proof. reflexivity. Qed.

Lemma refined_length mask v : length (refined mask v) = length mask.
Proof.
  unfold refined. now rewrite length_map, place_length, repeat_length.
Qed.

(** Entry [p] of the new mask: true when the old entry is true and the
    index is not zero at the rank [p] has among the true entries. *)
Lemma refined_nth mask : forall v p,
  nth p (refined mask v) false
  = nth p mask false
    && nth (np.count_true (firstn p mask)) (map np.nonzero v) false.
Proof.
  unfold np.count_true.
  induction mask as [|b mask IH]; intros v p.
  - rewrite refined_nil. now destruct p.
  - destruct b.
    + destruct v as [|w v].
      * rewrite refined_true_nil. destruct p as [|p]; [reflexivity|].
        cbn [nth firstn filter length map]. rewrite IH.
        cbn [map]. f_equal.
        now destruct (length (filter (fun t : bool => t) (firstn p mask))).
      * rewrite refined_true. destruct p as [|p]; [reflexivity|].
        cbn [nth firstn filter length map]. now rewrite IH.
    + rewrite refined_false. destruct p as [|p]; [reflexivity|].
      cbn [nth firstn filter]. now rewrite IH.
Qed.

Lemma nonzero_b2z b : np.nonzero (Z.b2z b) = b.
Proof. now destruct b. Qed.

(** Refining twice is refining once by the refined index. *)
Lemma refined_compose d : forall vi vj,
  refined (refined d vi) vj
  = refined d (map Z.b2z (refined (map np.nonzero vi) vj)).
Proof.
  induction d as [|b d IH]; intros vi vj; [reflexivity|].
  destruct b.
  - destruct vi as [|w vi].
    + rewrite refined_true_nil, refined_false. cbn [map].
      rewrite refined_nil. cbn [map]. rewrite refined_true_nil.
      f_equal. rewrite (IH [] vj). cbn [map]. now rewrite refined_nil.
    + rewrite refined_true. cbn [map].
      destruct (np.nonzero w).
      * destruct vj as [|u vj].
        -- rewrite !refined_true_nil. cbn [map Z.b2z].
           rewrite refined_true. f_equal. apply IH.
        -- rewrite !refined_true. cbn [map]. rewrite refined_true.
           rewrite nonzero_b2z. f_equal. apply IH.
      * rewrite !refined_false. cbn [map Z.b2z]. rewrite refined_true.
        f_equal. apply IH.
  - rewrite !refined_false. f_equal. apply IH.
Qed.

End RefineFacts.

Section UpdateMaskMore.

Context {matrix header affine_t : Type}.
Implicit Types (self : Mvp matrix header affine_t) (new_idx : np.ndarray).

Lemma set_mask_index_twice a b self :
  set_mask_index a (set_mask_index b self) = set_mask_index a self.
Proof. now destruct self. Qed.

(** [update_mask_valid] in the vocabulary of [refined]. *)
Lemma update_mask_refined self new_idx s d :
  mask_index self = Some (np.BoolArray s d) ->
  valid_call self new_idx ->
  update_mask new_idx self =
  (inr tt,
   set_mask_index
     (Some (np.BoolArray [np.prod (mask_shape self)]
              (refined d (np.values new_idx)))) self).
Proof. apply update_mask_valid. Qed.

End UpdateMaskMore.

(** X6.  After a valid call, voxel [p] is selected exactly when it was
    selected before and the index is not zero at the entry that belongs to
    it: the entry whose position is the number of selected voxels before
    [p]. *)
Theorem update_mask_entries
  {matrix header affine_t} (self : Mvp matrix header affine_t) new_idx s d :
  mask_index self = Some (np.BoolArray s d) ->
  valid_call self new_idx ->
  exists d',
    update_mask new_idx self =
    (inr tt,
     set_mask_index
       (Some (np.BoolArray [np.prod (mask_shape self)] d')) self)
    /\ length d' = length d
    /\ forall p,
        nth p d' false
        = nth p d false
          && nth (np.count_true (firstn p d)) (np.truth new_idx) false.
Proof.
  intros Hm Hv. exists (refined d (np.values new_idx)).
  split; [exact (update_mask_refined self new_idx s d Hm Hv)|].
  split; [apply refined_length|].
  intros p. rewrite truth_values. apply refined_nth.
Qed.

Lemma update_mask_entries_witness :
  exists d',
    update_mask (np.IntArray [2] [0; 7]%Z) scenario_mask =
    (inr tt, set_mask_index (Some (np.BoolArray [4] d')) scenario_mask)
    /\ length d' = 4
    /\ forall p,
        nth p d' false
        = nth p [true; false; true; false] false
          && nth (np.count_true (firstn p [true; false; true; false]))
               [false; true] false.
Proof.
  apply (update_mask_entries scenario_mask (np.IntArray [2] [0; 7]%Z)
           [4] [true; false; true; false]).
  - reflexivity.
  - vm_compute. repeat split.
Defined.

(** X7.  Two valid calls in a row, with [i] and then [j], leave the object
    that the single call with [compose_idx i j] leaves. *)
Theorem update_mask_compose
  {matrix header affine_t} (self : Mvp matrix header affine_t) i j s d :
  mask_index self = Some (np.BoolArray s d) ->
  valid_call self i ->
  np.shape j = [np.count_nonzero i] ->
  length (np.values j) = np.count_nonzero i ->
  exists self',
    update_masks [i; j] self = (inr tt, self')
    /\ update_mask (compose_idx i j) self = (inr tt, self').
Proof.
  intros Hm Hv Hsj Hlj.
  pose proof Hv as Hv'. unfold valid_call in Hv'. rewrite Hm in Hv'.
  destruct Hv' as (Hd & Hs & Hsi & Hli).
  assert (Hcount : np.count_true (refined d (np.values i)) = np.count_nonzero i).
  { unfold np.count_nonzero. rewrite truth_values. now apply place_count. }
  assert (Hti : length (np.truth i) = np.count_true d).
  { now rewrite truth_values, length_map. }
  set (s1 := set_mask_index
               (Some (np.BoolArray [np.prod (mask_shape self)]
                        (refined d (np.values i)))) self).
  assert (H1 : update_mask i self = (inr tt, s1))
    by exact (update_mask_refined self i s d Hm Hv).
  assert (Hm1 : mask_index s1
                = Some (np.BoolArray [np.prod (mask_shape self)]
                          (refined d (np.values i))))
    by now destruct self.
  assert (Hs1 : mask_shape s1 = mask_shape self) by now destruct self.
  assert (Hv1 : valid_call s1 j).
  { unfold valid_call. rewrite Hm1, Hs1, Hcount, refined_length.
    cbn [np.prod fold_right]. repeat split; try assumption; lia. }
  assert (Hvc : valid_call self (compose_idx i j)).
  { unfold valid_call. rewrite Hm. unfold compose_idx.
    cbn [np.shape np.values]. rewrite length_map, refined_length, Hti.
    now repeat split. }
  exists (set_mask_index
            (Some (np.BoolArray [np.prod (mask_shape self)]
                     (refined (refined d (np.values i)) (np.values j)))) self).
  split.
  - cbn [update_masks]. unfold bind, ret. rewrite H1.
    rewrite (update_mask_refined s1 j _ _ Hm1 Hv1), Hs1.
    unfold s1. now rewrite set_mask_index_twice.
  - rewrite (update_mask_refined self _ s d Hm Hvc).
    unfold compose_idx. cbn [np.values].
    now rewrite truth_values, refined_compose.
Qed.

Lemma update_mask_compose_witness :
  exists self',
    update_masks [np.IntArray [2] [1; 1]%Z; np.BoolArray [2] [false; true]]
      scenario_mask = (inr tt, self')
    /\ update_mask
         (compose_idx (np.IntArray [2] [1; 1]%Z)
            (np.BoolArray [2] [false; true])) scenario_mask
       = (inr tt, self').
Proof.
  apply (update_mask_compose scenario_mask (np.IntArray [2] [1; 1]%Z)
           (np.BoolArray [2] [false; true]) [4] [true; false; true; false]).
  - reflexivity.
  - vm_compute. repeat split.
  - reflexivity.
  - reflexivity.
Defined.

(** X8.  An index with two or more axes is refused even when it has the
    right number of entries: the in-place addition cannot broadcast it, the
    call raises ValueError and the object is unchanged. *)
Theorem update_mask_rejects_axes
  {matrix header affine_t} (self : Mvp matrix header affine_t) new_idx s d :
  mask_index self = Some (np.BoolArray s d) ->
  np.prod s = np.prod (mask_shape self) ->
  np.size new_idx = np.count_true d ->
  2 <= length (np.shape new_idx) ->
  exists msg, update_mask new_idx self = (inl (ValueError msg), self).
Proof.
  intros Hm Hs Hsize Hax. rewrite update_mask_unfold, Hm.
  cbn [np.sum]. rewrite sum_count_true, Hsize, Z.eqb_refl. cbn [negb].
  unfold np.reshape, np.size. cbn [np.shape]. rewrite Hs, Nat.eqb_refl.
  unfold np.iadd_at, np.iadd. cbn [np.fshape np.fdata].
  replace (np.broadcastable (np.shape new_idx) _) with false; [now eexists|].
  unfold np.broadcastable. cbn [length].
  destruct (Nat.leb_spec (length (np.shape new_idx)) 1); [lia|reflexivity].
Qed.

Lemma update_mask_rejects_axes_witness :
  exists msg,
    update_mask (np.IntArray [2; 1] [1; 0]%Z) scenario_mask
    = (inl (ValueError msg), scenario_mask).
Proof.
  apply (update_mask_rejects_axes scenario_mask (np.IntArray [2; 1] [1; 0]%Z)
           [4] [true; false; true; false]).
  - reflexivity.
  - reflexivity.
  - reflexivity.
  - simpl. lia.
Defined.

(** X9.  When the mask does not have as many entries as [mask_shape] has
    voxels, an index of the right size is still refused: the reshape raises
    ValueError and the object is unchanged. *)
Theorem update_mask_rejects_shape
  {matrix header affine_t} (self : Mvp matrix header affine_t) new_idx m :
  mask_index self = Some m ->
  Z.of_nat (np.size new_idx) = np.sum m ->
  np.size m <> np.prod (mask_shape self) ->
  exists msg, update_mask new_idx self = (inl (ValueError msg), self).
Proof.
  intros Hm Hsize Hne. rewrite update_mask_unfold, Hm, Hsize, Z.eqb_refl.
  cbn [negb]. unfold np.reshape.
  destruct (Nat.eqb_spec (np.size m) (np.prod (mask_shape self)));
    [contradiction|now eexists].
Qed.

Lemma update_mask_rejects_shape_witness :
  exists msg,
    update_mask (np.IntArray [2] [1; 0]%Z)
      (example_mvp None (Some (np.BoolArray [4] [true; false; true; false]))
         [2; 3])
    = (inl (ValueError msg),
       example_mvp None (Some (np.BoolArray [4] [true; false; true; false]))
         [2; 3]).
Proof.
  apply (update_mask_rejects_shape
           (example_mvp None
              (Some (np.BoolArray [4] [true; false; true; false])) [2; 3])
           (np.IntArray [2] [1; 0]%Z)
           (np.BoolArray [4] [true; false; true; false])).
  - reflexivity.
  - reflexivity.
  - vm_compute. lia.
Defined.

(** X10.  A mask kept as integers is not read as a mask.  With a mask
    shape of one axis of length [n] and an index of one axis of length [k],
    [1 < k] and [k <> n], the call always raises and the object is
    unchanged. *)
Theorem update_mask_integer_mask
  {matrix header affine_t} (self : Mvp matrix header affine_t)
  new_idx s d n k :
  mask_index self = Some (np.IntArray s d) ->
  mask_shape self = [n] ->
  np.shape new_idx = [k] -> 1 < k -> k <> n ->
  exists e, update_mask new_idx self = (inl e, self).
Proof.
  intros Hm Hshape Hk H1 Hn. rewrite update_mask_unfold, Hm.
  destruct (negb _); [now eexists|].
  unfold np.reshape. destruct (_ =? _); [|now eexists].
  rewrite Hshape. unfold np.iadd_at, np.zeros. cbn [np.fshape np.fdata].
  destruct (np.rows_of n d) as [rs|]; [|now eexists].
  unfold np.iadd. cbn [np.fshape]. rewrite Hk.
  replace (np.broadcastable [k] ([n] ++ [])) with false; [now eexists|].
  unfold np.broadcastable. cbn.
  destruct (Nat.eqb_spec k n); [contradiction|].
  destruct (Nat.eqb_spec k 1); [lia|reflexivity].
Qed.

Lemma update_mask_integer_mask_witness :
  exists e,
    update_mask (np.IntArray [2] [1; 0]%Z)
      (example_mvp None (Some (np.IntArray [4] [1; 0; 1; 0]%Z)) [4])
    = (inl e, example_mvp None (Some (np.IntArray [4] [1; 0; 1; 0]%Z)) [4]).
Proof.
  apply (update_mask_integer_mask
           (example_mvp None (Some (np.IntArray [4] [1; 0; 1; 0]%Z)) [4])
           (np.IntArray [2] [1; 0]%Z) [4] [1; 0; 1; 0]%Z 4 2).
  - reflexivity.
  - reflexivity.
  - reflexivity.
  - lia.
  - lia.
Defined.

(* ================================================================== *)
(** ** More on [update_metadata] *)

Section CodeFacts.

(** In an array without repetition an element is found where it stands. *)
Lemma index_of_nth u : forall k c,
  NoDup u -> nth_error u k = Some c -> np.index c u = k.
Proof.
  induction u as [|z u IH]; intros k c Hnd Hk; [now destruct k|].
  inversion Hnd as [|? ? Hz Hu]; subst. simpl.
  destruct k as [|k]; simpl in Hk.
  - injection Hk as ->. now rewrite String.eqb_refl.
  - destruct (String.eqb_spec c z) as [->|N].
    + apply nth_error_In in Hk. contradiction.
    + f_equal. now apply IH.
Qed.

(** In a strictly ascending array positions are ordered as elements are. *)
Lemma index_order u a b :
  StronglySorted str_lt u -> In a u -> In b u ->
  (np.index a u < np.index b u <-> str_lt a b).
Proof.
  induction 1 as [|z u Hs IH Hz]; simpl; [contradiction|].
  rewrite Forall_forall in Hz. intros Ha Hb.
  destruct (String.eqb_spec a z) as [->|Na];
    destruct (String.eqb_spec b z) as [->|Nb].
  - split; [lia|]. intros H. destruct (str_lt_irrefl _ H).
  - destruct Hb as [E|Hb]; [congruence|].
    split; [intros _; now apply Hz|lia].
  - destruct Ha as [E|Ha]; [congruence|].
    split; [lia|]. intros H. destruct (str_lt_asym _ _ H (Hz a Ha)).
  - destruct Ha as [E|Ha]; [congruence|].
    destruct Hb as [E|Hb]; [congruence|].
    rewrite <- (IH Ha Hb). lia.
Qed.

(** A strictly ascending array is determined by its elements. *)
Lemma sorted_unique u : forall v,
  StronglySorted str_lt u -> StronglySorted str_lt v ->
  (forall x, In x u <-> In x v) -> u = v.
Proof.
  induction u as [|a u IH]; intros [|b v] Hu Hv Hin.
  - reflexivity.
  - destruct (proj2 (Hin b) (or_introl eq_refl)).
  - destruct (proj1 (Hin a) (or_introl eq_refl)).
  - inversion Hu as [|? ? Hu' Ha]; inversion Hv as [|? ? Hv' Hb]; subst.
    rewrite Forall_forall in Ha, Hb.
    assert (E : a = b).
    { destruct (proj1 (Hin a) (or_introl eq_refl)) as [E|Hav]; [now symmetry|].
      destruct (proj2 (Hin b) (or_introl eq_refl)) as [E|Hbu]; [exact E|].
      destruct (str_lt_asym _ _ (Ha b Hbu) (Hb a Hav)). }
    subst b. f_equal. apply IH; try assumption.
    intros x. split; intros Hx.
    + destruct (proj1 (Hin x) (or_intror Hx)) as [E|H]; [|exact H].
      subst x. destruct (str_lt_irrefl _ (Ha a Hx)).
    + destruct (proj2 (Hin x) (or_intror Hx)) as [E|H]; [|exact H].
      subst x. destruct (str_lt_irrefl _ (Hb a Hx)).
Qed.

(** [np.unique] sees the elements, not their order or number. *)
Lemma unique_same_elements cl cl' :
  (forall x, In x cl <-> In x cl') -> np.unique cl = np.unique cl'.
Proof.
  intros H. apply sorted_unique; try apply unique_sorted.
  intros x. now rewrite !unique_In.
Qed.

Lemma where_from_filter b : forall k,
  np.where_from k b
  = filter (fun i => nth (i - k) b false) (seq k (length b)).
Proof.
  induction b as [|t b IH]; intros k; [reflexivity|].
  cbn [np.where_from length seq filter]. rewrite Nat.sub_diag.
  change (nth 0 (t :: b) false) with t.
  assert (E : filter (fun i => nth (i - k) (t :: b) false) (seq (S k) (length b))
              = filter (fun i => nth (i - S k) b false) (seq (S k) (length b))).
  { apply filter_ext_in. intros i Hi. apply in_seq in Hi.
    now replace (i - k) with (S (i - S k)) by lia. }
  rewrite E, <- IH. reflexivity.
Qed.

Lemma where_length b : length (np.where_ b) = np.count_true b.
Proof.
  unfold np.where_, np.count_true. generalize 0.
  induction b as [|t b IH]; intros k; [reflexivity|].
  simpl. destruct t; simpl; now rewrite IH.
Qed.

End CodeFacts.

Section UpdateMetadataMore.

Context {matrix header affine_t : Type}.
Implicit Types (self : Mvp matrix header affine_t).

Lemma update_metadata_run self cl :
  cope_labels self = Some cl ->
  update_metadata self = (inr tt, with_metadata cl self).
Proof.
  intros H. destruct self; simpl in H; subst. reflexivity.
Qed.

Lemma with_metadata_twice cl self :
  with_metadata cl (with_metadata cl self) = with_metadata cl self.
Proof. now destruct self. Qed.

Lemma with_metadata_labels cl self :
  cope_labels (with_metadata cl self) = cope_labels self.
Proof. now destruct self. Qed.

Lemma with_metadata_mask cl self :
  mask_index (with_metadata cl self) = mask_index self
  /\ mask_shape (with_metadata cl self) = mask_shape self.
Proof. now destruct self. Qed.

Lemma with_metadata_set_mask cl m self :
  with_metadata cl (set_mask_index m self)
  = set_mask_index m (with_metadata cl self).
Proof. now destruct self. Qed.

End UpdateMetadataMore.

(** X11.  Whether it returns or raises, [update_metadata] leaves the
    labels, the pattern matrix, the mask, the mask shape, the header and the
    affine as they were. *)
Theorem update_metadata_frame
  {matrix header affine_t} (self : Mvp matrix header affine_t) :
  let self' := snd (update_metadata self) in
  cope_labels self' = cope_labels self /\ X self' = X self
  /\ mask_index self' = mask_index self /\ mask_shape self' = mask_shape self
  /\ nifti_header self' = nifti_header self /\ affine self' = affine self.
Proof.
  destruct self as [labels ? ? ? ? ? ? ? ? ? ? ? ?].
  destruct labels as [cl|].
  - rewrite (update_metadata_run _ cl) by reflexivity. repeat split.
  - rewrite update_metadata_none by reflexivity. repeat split.
Qed.

(** X12.  Running [update_metadata] a second time changes nothing: the
    outcome and the object are those of the first run. *)
Theorem update_metadata_twice
  {matrix header affine_t} (self : Mvp matrix header affine_t) :
  bind update_metadata (fun _ => update_metadata) self = update_metadata self.
Proof.
  unfold bind. destruct (cope_labels self) as [cl|] eqn:H.
  - rewrite (update_metadata_run self cl H).
    rewrite (update_metadata_run (with_metadata cl self) cl)
      by now rewrite with_metadata_labels.
    now rewrite with_metadata_twice.
  - now rewrite (update_metadata_none self H).
Qed.

(** X13.  When there are labels and [update_mask] returns, the two methods
    can run in either order: the final object is the same. *)
Theorem update_metadata_mask_commute
  {matrix header affine_t} (self : Mvp matrix header affine_t) new_idx :
  cope_labels self <> None ->
  fst (update_mask new_idx self) = inr tt ->
  bind update_metadata (fun _ => update_mask new_idx) self
  = bind (update_mask new_idx) (fun _ => update_metadata) self.
Proof.
  intros Hl Hrun. destruct (cope_labels self) as [cl|] eqn:H; [|congruence].
  unfold bind. rewrite (update_metadata_run self cl H).
  destruct (with_metadata_mask cl self) as [Hmi Hms].
  rewrite !update_mask_unfold, Hmi, Hms in *.
  destruct (mask_index self) as [cur|]; [|discriminate].
  destruct (negb _); [discriminate|].
  destruct (np.reshape cur (mask_shape self)) as [e|idx]; [discriminate|].
  destruct (np.iadd_at _ idx new_idx) as [e|tmp_idx]; [discriminate|].
  rewrite (update_metadata_run _ cl)
    by (rewrite <- H; now destruct self).
  now rewrite with_metadata_set_mask.
Qed.

Lemma update_metadata_mask_commute_witness :
  bind update_metadata (fun _ => update_mask (np.IntArray [2] [1; 0]%Z))
    (example_mvp (Some scenario_labels)
       (Some (np.BoolArray [4] [true; false; true; false])) [2; 2])
  = bind (update_mask (np.IntArray [2] [1; 0]%Z)) (fun _ => update_metadata)
      (example_mvp (Some scenario_labels)
         (Some (np.BoolArray [4] [true; false; true; false])) [2; 2]).
Proof.
  apply (update_metadata_mask_commute
           (example_mvp (Some scenario_labels)
              (Some (np.BoolArray [4] [true; false; true; false])) [2; 2])
           (np.IntArray [2] [1; 0]%Z)).
  - discriminate.
  - reflexivity.
Defined.

(** X14.  The codes decode: for every sample, its code is below [n_cope]
    and the name stored at that position of [cope_names] is the sample's
    label. *)
Theorem update_metadata_decode :
  forall matrix header affine_t (self : Mvp matrix header affine_t) cl,
    cope_labels self = Some cl ->
    exists self' enc names,
      update_metadata self = (inr tt, self')
      /\ y self' = Some enc /\ cope_names self' = Some names
      /\ n_cope self' = Some (length names)
      /\ forall i a,
          nth_error cl i = Some a ->
          exists k,
            nth_error enc i = Some k /\ k < length names
            /\ nth_error names k = Some a.
Proof.
  intros matrix header affine_t self cl H.
  destruct (update_metadata_some self cl H)
    as (self' & Hrun & Hy & _ & Hnames & Hnc & _).
  exists self', (map (fun x => np.index x (np.unique cl)) cl), (np.unique cl).
  repeat (split; [assumption|]).
  intros i a Ha. exists (np.index a (np.unique cl)).
  assert (Hin : In a (np.unique cl)) by (eapply unique_In, nth_error_In, Ha).
  rewrite nth_error_map, Ha. repeat split.
  - now apply index_lt.
  - now apply index_nth.
Qed.

Lemma update_metadata_decode_witness :
  exists self' enc names,
    update_metadata (example_mvp (Some scenario_labels) None []) = (inr tt, self')
    /\ y self' = Some enc /\ cope_names self' = Some names
    /\ exists k, nth_error enc 3 = Some k /\ nth_error names k = Some "C"%string.
Proof.
  destruct (update_metadata_decode unit unit unit
              (example_mvp (Some scenario_labels) None []) scenario_labels
              eq_refl) as (self' & enc & names & Hrun & Hy & Hn & _ & Hdec).
  exists self', enc, names. repeat (split; [assumption|]).
  destruct (Hdec 3 "C"%string eq_refl) as (k & Hk & _ & Hname).
  now exists k.
Defined.

(** X15.  The codes leave no gap: every number below [n_cope] is the code
    of some sample. *)
Theorem update_metadata_codes_dense :
  forall matrix header affine_t (self : Mvp matrix header affine_t) cl,
    cope_labels self = Some cl ->
    exists self' enc n,
      update_metadata self = (inr tt, self')
      /\ y self' = Some enc /\ n_cope self' = Some n
      /\ forall k, k < n -> exists i, nth_error enc i = Some k.
Proof.
  intros matrix header affine_t self cl H.
  destruct (update_metadata_some self cl H)
    as (self' & Hrun & Hy & _ & _ & Hnc & _).
  exists self', (map (fun x => np.index x (np.unique cl)) cl),
    (length (np.unique cl)).
  repeat (split; [assumption|]).
  intros k Hk.
  destruct (nth_error (np.unique cl) k) as [c|] eqn:Hc;
    [|apply nth_error_None in Hc; lia].
  assert (Hin : In c cl) by (eapply unique_In, nth_error_In, Hc).
  apply In_nth_error in Hin as [i Hi]. exists i.
  rewrite nth_error_map, Hi. simpl. f_equal.
  apply index_of_nth; [apply unique_NoDup|exact Hc].
Qed.

Lemma update_metadata_codes_dense_witness :
  exists self' enc n,
    update_metadata (example_mvp (Some scenario_labels) None []) = (inr tt, self')
    /\ y self' = Some enc /\ n_cope self' = Some n
    /\ forall k, k < n -> exists i, nth_error enc i = Some k.
Proof.
  exact (update_metadata_codes_dense unit unit unit
           (example_mvp (Some scenario_labels) None []) scenario_labels
           eq_refl).
Defined.

(** X16.  [cope_names] is strictly ascending in byte-wise order, holds
    exactly the labels that occur, and [n_cope] is the number of distinct
    labels, at most [n_trials]. *)
Theorem update_metadata_names :
  forall matrix header affine_t (self : Mvp matrix header affine_t) cl,
    cope_labels self = Some cl ->
    exists self' names,
      update_metadata self = (inr tt, self')
      /\ cope_names self' = Some names
      /\ n_cope self' = Some (length (nodup string_dec cl))
      /\ n_trials self' = Some (length cl)
      /\ length (nodup string_dec cl) <= length cl
      /\ StronglySorted str_lt names
      /\ forall x, In x names <-> In x cl.
Proof.
  intros matrix header affine_t self cl H.
  destruct (update_metadata_some self cl H)
    as (self' & Hrun & _ & Hn & Hnames & Hnc & _).
  exists self', (np.unique cl).
  assert (Hperm : Permutation (np.unique cl) (nodup string_dec cl)).
  { apply NoDup_Permutation; [apply unique_NoDup|apply NoDup_nodup|].
    intros x. now rewrite unique_In, nodup_In. }
  repeat (split; [assumption|]). split; [|split; [exact Hn|split; [|split]]].
  - rewrite Hnc. f_equal. now apply Permutation_length.
  - apply NoDup_incl_length; [apply NoDup_nodup|].
    intros x Hx. now apply nodup_In in Hx.
  - apply unique_sorted.
  - intros x. apply unique_In.
Qed.

Lemma update_metadata_names_witness :
  exists self' names,
    update_metadata (example_mvp (Some scenario_labels) None []) = (inr tt, self')
    /\ cope_names self' = Some names
    /\ n_cope self' = Some 3
    /\ StronglySorted str_lt names.
Proof.
  destruct (update_metadata_names unit unit unit
              (example_mvp (Some scenario_labels) None []) scenario_labels
              eq_refl) as (self' & names & Hrun & Hn & Hc & _ & _ & Hs & _).
  exists self', names. repeat (split; [assumption|]). exact Hs.
Defined.

Section CodeOfName.

(** A label has the code [k] exactly when it is the [k]-th name. *)
Lemma code_is_position cl k c z :
  nth_error (np.unique cl) k = Some c -> In z cl ->
  String.eqb z c = Nat.eqb (np.index z (np.unique cl)) k.
Proof.
  intros Hk Hz.
  destruct (String.eqb_spec z c) as [->|N].
  - rewrite (index_of_nth _ k c (unique_NoDup cl) Hk). now rewrite Nat.eqb_refl.
  - destruct (Nat.eqb_spec (np.index z (np.unique cl)) k) as [E|_];
      [|reflexivity].
    apply unique_In, index_nth in Hz. rewrite E in Hz. congruence.
Qed.

End CodeOfName.

(** X17.  The derived vectors say the same as the codes: [class_idx[k]] is
    [y == k], and [trial_idx[k]] lists, in ascending order, the samples
    whose code is [k]. *)
Theorem update_metadata_vectors :
  forall matrix header affine_t (self : Mvp matrix header affine_t) cl,
    cope_labels self = Some cl ->
    exists self' enc cidx tidx n,
      update_metadata self = (inr tt, self')
      /\ y self' = Some enc /\ class_idx self' = Some cidx
      /\ trial_idx self' = Some tidx /\ n_cope self' = Some n
      /\ forall k, k < n ->
           nth_error cidx k = Some (map (fun e => Nat.eqb e k) enc)
           /\ nth_error tidx k
              = Some (filter (fun i => Nat.eqb (nth i enc n) k)
                        (seq 0 (length cl))).
Proof.
  intros matrix header affine_t self cl H.
  destruct (update_metadata_some self cl H)
    as (self' & Hrun & Hy & _ & _ & Hnc & _ & Hc & Ht & _).
  exists self', (map (fun x => np.index x (np.unique cl)) cl),
    (map (fun cls => np.eq_elem cl cls) (np.unique cl)),
    (map (fun cls => np.where_ (np.eq_elem cl cls)) (np.unique cl)),
    (length (np.unique cl)).
  repeat (split; [assumption|]).
  intros k Hk.
  destruct (nth_error (np.unique cl) k) as [c|] eqn:Hc';
    [|apply nth_error_None in Hc'; lia].
  rewrite !nth_error_map, Hc'. simpl. split; f_equal.
  - unfold np.eq_elem. rewrite map_map. apply map_ext_in.
    intros z Hz. now apply code_is_position.
  - unfold np.where_. rewrite where_from_filter.
    unfold np.eq_elem at 2. rewrite length_map.
    apply filter_ext_in. intros i Hi. apply in_seq in Hi.
    rewrite Nat.sub_0_r.
    destruct (nth_error cl i) as [z|] eqn:Hz;
      [|apply nth_error_None in Hz; lia].
    assert (Hn1 : nth i (np.eq_elem cl c) false = String.eqb z c).
    { apply nth_error_nth. unfold np.eq_elem. now rewrite nth_error_map, Hz. }
    assert (Hn2 : nth i (map (fun x => np.index x (np.unique cl)) cl)
                    (length (np.unique cl)) = np.index z (np.unique cl)).
    { apply nth_error_nth. now rewrite nth_error_map, Hz. }
    rewrite Hn1, Hn2. apply code_is_position; [exact Hc'|].
    eapply nth_error_In, Hz.
Qed.

Lemma update_metadata_vectors_witness :
  exists self' enc cidx tidx n,
    update_metadata (example_mvp (Some scenario_labels) None []) = (inr tt, self')
    /\ y self' = Some enc /\ class_idx self' = Some cidx
    /\ trial_idx self' = Some tidx /\ n_cope self' = Some n
    /\ forall k, k < n ->
         nth_error cidx k = Some (map (fun e => Nat.eqb e k) enc)
         /\ nth_error tidx k
            = Some (filter (fun i => Nat.eqb (nth i enc n) k) (seq 0 6)).
Proof.
  exact (update_metadata_vectors unit unit unit
           (example_mvp (Some scenario_labels) None []) scenario_labels
           eq_refl).
Defined.

(** X18.  [n_inst] of a sample is the length of the position vector of the
    sample's own condition, which lists the sample; so it is at least 1. *)
Theorem update_metadata_counts :
  forall matrix header affine_t (self : Mvp matrix header affine_t) cl,
    cope_labels self = Some cl ->
    exists self' enc tidx counts,
      update_metadata self = (inr tt, self')
      /\ y self' = Some enc /\ trial_idx self' = Some tidx
      /\ n_inst self' = Some counts
      /\ length counts = length cl
      /\ forall i, i < length cl ->
           exists k t,
             nth_error enc i = Some k /\ nth_error tidx k = Some t
             /\ In i t /\ nth_error counts i = Some (length t)
             /\ 1 <= length t.
Proof.
  intros matrix header affine_t self cl H.
  destruct (update_metadata_some self cl H)
    as (self' & Hrun & Hy & _ & _ & _ & Hi & _ & Ht & _).
  exists self', (map (fun x => np.index x (np.unique cl)) cl),
    (map (fun cls => np.where_ (np.eq_elem cl cls)) (np.unique cl)),
    (map (fun cls => np.count_true (np.eq_elem cl cls)) cl).
  repeat (split; [assumption|]). split; [apply length_map|].
  intros i Hlt.
  destruct (nth_error cl i) as [a|] eqn:Ha;
    [|apply nth_error_None in Ha; lia].
  assert (Hin : In a (np.unique cl)) by (eapply unique_In, nth_error_In, Ha).
  assert (Hit : In i (np.where_ (np.eq_elem cl a)))
    by now apply where_eq_elem_In.
  exists (np.index a (np.unique cl)), (np.where_ (np.eq_elem cl a)).
  rewrite !nth_error_map, Ha, (index_nth _ _ Hin). simpl.
  repeat split; try assumption.
  - now rewrite where_length.
  - destruct (np.where_ (np.eq_elem cl a)); [contradiction|simpl; lia].
Qed.

Lemma update_metadata_counts_witness :
  exists self' enc tidx counts,
    update_metadata (example_mvp (Some scenario_labels) None []) = (inr tt, self')
    /\ y self' = Some enc /\ trial_idx self' = Some tidx
    /\ n_inst self' = Some counts
    /\ length counts = 6
    /\ forall i, i < 6 ->
         exists k t,
           nth_error enc i = Some k /\ nth_error tidx k = Some t
           /\ In i t /\ nth_error counts i = Some (length t)
           /\ 1 <= length t.
Proof.
  exact (update_metadata_counts unit unit unit
           (example_mvp (Some scenario_labels) None []) scenario_labels
           eq_refl).
Defined.

(** X19.  Only the set of labels matters for the names: two containers
    whose labels hold the same names, in any order and any number, get the
    same [cope_names] and [n_cope], and a label gets the same code in
    both. *)
Theorem update_metadata_same_names :
  forall matrix header affine_t (self other : Mvp matrix header affine_t)
         cl cl',
    cope_labels self = Some cl -> cope_labels other = Some cl' ->
    (forall x, In x cl <-> In x cl') ->
    exists self' other' enc enc',
      update_metadata self = (inr tt, self')
      /\ update_metadata other = (inr tt, other')
      /\ cope_names self' = cope_names other'
      /\ n_cope self' = n_cope other'
      /\ y self' = Some enc /\ y other' = Some enc'
      /\ forall i j a,
           nth_error cl i = Some a -> nth_error cl' j = Some a ->
           nth_error enc i = nth_error enc' j.
Proof.
  intros matrix header affine_t self other cl cl' H H' Hsame.
  destruct (update_metadata_some self cl H)
    as (self' & Hrun & Hy & _ & Hn & Hnc & _).
  destruct (update_metadata_some other cl' H')
    as (other' & Hrun' & Hy' & _ & Hn' & Hnc' & _).
  pose proof (unique_same_elements cl cl' Hsame) as E.
  exists self', other', (map (fun x => np.index x (np.unique cl)) cl),
    (map (fun x => np.index x (np.unique cl')) cl').
  repeat (split; [first [assumption | congruence]|]).
  intros i j a Ha Ha'. rewrite !nth_error_map, Ha, Ha', E. reflexivity.
Qed.

Lemma update_metadata_same_names_witness :
  exists self' other',
    update_metadata (example_mvp (Some ["B"; "A"; "B"]%string) None [])
    = (inr tt, self')
    /\ update_metadata (example_mvp (Some ["A"; "B"]%string) None [])
       = (inr tt, other')
    /\ cope_names self' = cope_names other'
    /\ n_cope self' = n_cope other'.
Proof.
  destruct (update_metadata_same_names unit unit unit
              (example_mvp (Some ["B"; "A"; "B"]%string) None [])
              (example_mvp (Some ["A"; "B"]%string) None [])
              ["B"; "A"; "B"]%string ["A"; "B"]%string eq_refl eq_refl)
    as (self' & other' & enc & enc' & Hrun & Hrun' & Hn & Hc & _).
  - intros x. simpl. tauto.
  - exists self', other'. repeat (split; [assumption|]). exact Hc.
Defined.

(** X20.  The codes are ordered as the labels are: the code of one sample
    is below the code of another exactly when its label comes first in
    byte-wise order. *)
Theorem update_metadata_order :
  forall matrix header affine_t (self : Mvp matrix header affine_t) cl,
    cope_labels self = Some cl ->
    exists self' enc,
      update_metadata self = (inr tt, self')
      /\ y self' = Some enc
      /\ forall i j a b,
           nth_error cl i = Some a -> nth_error cl j = Some b ->
           exists ka kb,
             nth_error enc i = Some ka /\ nth_error enc j = Some kb
             /\ (ka < kb <-> str_lt a b).
Proof.
  intros matrix header affine_t self cl H.
  destruct (update_metadata_some self cl H) as (self' & Hrun & Hy & _).
  exists self', (map (fun x => np.index x (np.unique cl)) cl).
  repeat (split; [assumption|]).
  intros i j a b Ha Hb.
  exists (np.index a (np.unique cl)), (np.index b (np.unique cl)).
  rewrite !nth_error_map, Ha, Hb. repeat split.
  - apply index_order; [apply unique_sorted| |];
      eapply unique_In, nth_error_In; eassumption.
  - apply index_order; [apply unique_sorted| |];
      eapply unique_In, nth_error_In; eassumption.
Qed.

Lemma update_metadata_order_witness :
  exists self' enc,
    update_metadata (example_mvp (Some scenario_labels) None []) = (inr tt, self')
    /\ y self' = Some enc
    /\ exists ka kb,
        nth_error enc 1 = Some ka /\ nth_error enc 3 = Some kb /\ ka < kb.
Proof.
  destruct (update_metadata_order unit unit unit
              (example_mvp (Some scenario_labels) None []) scenario_labels
              eq_refl) as (self' & enc & Hrun & Hy & Hord).
  exists self', enc. repeat (split; [assumption|]).
  destruct (Hord 1 3 "B"%string "C"%string eq_refl eq_refl)
    as (ka & kb & Ha & Hb & Hlt).
  exists ka, kb. repeat (split; [assumption|]). now apply Hlt.
Defined.
